(** * react-tree-store: the store engine of [src/store.ts]

    A shallow embedding of [Store<State>(initial)]: the closure variables
    [state], [queued] and [listeners], the functions [subscribe],
    [useSubtree], [useTree], [notify] (called [update] in the first
    revision of the file), [getTree], [reset] and [set], together with the
    three lodash functions they call ([_.cloneDeep], [_.get], [_.assign])
    and the host facilities they rely on ([setTimeout], the [forceUpdate]
    setter that React hands out).

    JavaScript objects are shared and mutated in place, so the embedding
    keeps an explicit object heap; references are heap locations and [===]
    on objects is equality of locations. *)

From Stdlib Require Import Ascii String.
From stdpp Require Import base tactics option strings pretty numbers relations list.

Open Scope string_scope.
Open Scope list_scope.

(** ** Values and the object heap *)

Abbreviation loc := nat (only parsing).

(** Primitives.  Numbers are integers here; [NaN] is kept apart because it
    is the one primitive that [===] does not relate to itself.  A string is
    a sequence of characters with codes below 256. *)
Inductive prim :=
| PUndef
| PNull
| PBool (b : bool)
| PNum (n : Z)
| PNaN
| PStr (s : string).

Inductive value :=
| Prim (p : prim)
| Ref (l : loc).

#[global] Instance prim_eq_dec : EqDecision prim.
Proof. solve_decision. Defined.

#[global] Instance value_eq_dec : EqDecision value.
Proof. solve_decision. Defined.

Definition undefined : value := Prim PUndef.

(** An object is its list of own enumerable string-keyed properties in
    insertion order.  An array is not told apart from other objects: it is
    the record of its elements keyed by index, and its [length], which is
    not enumerable, is not represented.  Members inherited from a prototype
    are not represented either: values hold no functions. *)
Abbreviation obj := (list (string * value)) (only parsing).

Abbreviation heap := (list (list (string * value))) (only parsing).

(** [a === b] *)
Definition strict_eq (a b : value) : bool :=
  match a, b with
  | Prim PNaN, _ => false
  | _, Prim PNaN => false
  | _, _ => bool_decide (a = b)
  end.

(** [v == null] *)
Definition nullish (v : value) : bool :=
  match v with
  | Prim PUndef | Prim PNull => true
  | _ => false
  end.

Fixpoint lookup_prop (k : string) (o : obj) : option value :=
  match o with
  | [] => None
  | (k', v) :: o' => if decide (k = k') then Some v else lookup_prop k o'
  end.

(** [o[k]] on an object record: a missing key reads as [undefined]. *)
Definition get_prop (k : string) (o : obj) : value :=
  default undefined (lookup_prop k o).

(** [o[k] = v] on an object record: an existing key keeps its position, a
    new key goes last. *)
Fixpoint set_prop (k : string) (v : value) (o : obj) : obj :=
  match o with
  | [] => [(k, v)]
  | (k', v') :: o' =>
    if decide (k = k') then (k, v) :: o' else (k', v') :: set_prop k v o'
  end.

Definition keys (o : obj) : list string := o.*1.

(** The key of the index [i]: its decimal numeral. *)
Definition index_key (i : nat) : string := pretty i.

(** The own enumerable properties of a string: its characters, each a
    string of length one, keyed by index. *)
Fixpoint index_props (i : nat) (cs : list ascii) : obj :=
  match cs with
  | [] => []
  | c :: cs' => (index_key i, Prim (PStr (String c ""))) :: index_props (S i) cs'
  end.

Definition string_props (s : string) : obj :=
  index_props 0 (list_ascii_of_string s).

(** [k in Object(v)] for a non-nullish [v]: the own keys of an object, and
    for a string its indices and [length]. *)
Definition has_key (h : heap) (v : value) (k : string) : bool :=
  match v with
  | Ref l =>
    match h !! l with
    | Some o => bool_decide (is_Some (lookup_prop k o))
    | None => false
    end
  | Prim (PStr s) =>
    bool_decide (is_Some (lookup_prop k (string_props s)))
    || bool_decide (k = "length")
  | Prim _ => false
  end.

(** [v[k]] for a non-nullish [v]: a property of an object, a character or
    the [length] of a string; numbers and booleans have no own members. *)
Definition read (h : heap) (v : value) (k : string) : value :=
  match v with
  | Ref l =>
    match h !! l with
    | Some o => get_prop k o
    | None => undefined
    end
  | Prim (PStr s) =>
    match lookup_prop k (string_props s) with
    | Some c => c
    | None =>
      if decide (k = "length") then Prim (PNum (Z.of_nat (String.length s)))
      else undefined
    end
  | Prim _ => undefined
  end.

(** [obj[k] = v] through a reference held by the caller, for a key other
    than [__proto__] (which names the prototype, not a property). *)
Definition write (l : loc) (k : string) (v : value) (h : heap) : heap :=
  alter (set_prop k v) l h.

(** An object literal: the new object gets the next free location. *)
Definition alloc (o : obj) (h : heap) : heap * value :=
  (h ++ [o], Ref (length h)).

(** ** lodash *)

(** The character classes of lodash's path expressions. *)
Definition is_special (c : ascii) : bool :=
  Ascii.eqb c "."%char || Ascii.eqb c "["%char || Ascii.eqb c "]"%char.

Definition is_bracket (c : ascii) : bool :=
  Ascii.eqb c "["%char || Ascii.eqb c "]"%char.

Definition is_digit (c : ascii) : bool :=
  (48 <=? nat_of_ascii c)%nat && (nat_of_ascii c <=? 57)%nat.

(** [\w] *)
Definition is_word (c : ascii) : bool :=
  is_digit c
  || ((65 <=? nat_of_ascii c)%nat && (nat_of_ascii c <=? 90)%nat)
  || ((97 <=? nat_of_ascii c)%nat && (nat_of_ascii c <=? 122)%nat)
  || Ascii.eqb c "_"%char.

(** The double quote and the apostrophe. *)
Definition is_quote (c : ascii) : bool :=
  Ascii.eqb c "034"%char || Ascii.eqb c "039"%char.

Definition is_backslash (c : ascii) : bool := Ascii.eqb c "092"%char.

Definition is_line_terminator (c : ascii) : bool :=
  Ascii.eqb c "010"%char || Ascii.eqb c "013"%char.

(** The longest prefix of characters in a class, and the rest. *)
Fixpoint take_while (p : ascii -> bool) (s : string) : string * string :=
  match s with
  | String c s' =>
    if p c then let '(run, rest) := take_while p s' in (String c run, rest)
    else ("", s)
  | EmptyString => ("", "")
  end.

(** The character [c] at the head of [s]: what follows it. *)
Definition expect (c : ascii) (s : string) : option string :=
  match s with
  | String d s' => if Ascii.eqb d c then Some s' else None
  | EmptyString => None
  end.

(** [(-?\d+(?:\.\d+)?)\]] at the head of [s]: the number and what follows
    the bracket. *)
Definition match_number (s : string) : option (string * string) :=
  let '(sign, s1) :=
    match expect "-"%char s with Some s' => ("-", s') | None => ("", s) end in
  let '(int, s2) := take_while is_digit s1 in
  if String.eqb int "" then None
  else
    let '(frac, s3) :=
      match expect "."%char s2 with
      | Some s' =>
        let '(d, r) := take_while is_digit s' in
        if String.eqb d "" then ("", s2) else (String "."%char d, r)
      | None => ("", s2)
      end in
    rest ← expect "]"%char s3; Some (sign +:+ int +:+ frac, rest).

(** [((?:(?!q)[^\\]|\\.)*?)q\]] at the head of [s], after the opening quote
    [q]: the characters up to the first quote that no backslash escapes,
    which a closing bracket has to follow, and what follows the bracket. *)
Fixpoint match_quoted (q : ascii) (s : string) : option (string * string) :=
  match s with
  | EmptyString => None
  | String c s' =>
    if Ascii.eqb c q then rest ← expect "]"%char s'; Some ("", rest)
    else if is_backslash c then
      match s' with
      | String d s'' =>
        if is_line_terminator d then None
        else
          '(sub, rest) ← match_quoted q s'';
          Some (String c (String d sub), rest)
      | EmptyString => None
      end
    else '(sub, rest) ← match_quoted q s'; Some (String c sub, rest)
  end.

(** [subString.replace(reEscapeChar, '$1')]: a backslash goes, unless a
    backslash comes before it. *)
Fixpoint unescape (s : string) : string :=
  match s with
  | EmptyString => ""
  | String c s' =>
    if is_backslash c then
      match s' with
      | String d s'' =>
        if is_backslash d then String d (unescape s'') else unescape s'
      | EmptyString => ""
      end
    else String c (unescape s')
  end.

(** The bracket alternative of [rePropName] after the opening bracket: a
    number, or a quoted string. *)
Definition bracket (s : string) : option (string * string) :=
  match match_number s with
  | Some r => Some r
  | None =>
    match s with
    | String q s' =>
      if is_quote q then
        '(sub, rest) ← match_quoted q s'; Some (unescape sub, rest)
      else None
    | EmptyString => None
    end
  end.

(** [\.|\[\]] at the head of [s]: what follows it. *)
Definition separator (s : string) : option string :=
  match s with
  | String c s' =>
    if Ascii.eqb c "."%char then Some s'
    else if Ascii.eqb c "["%char then expect "]"%char s'
    else None
  | EmptyString => None
  end.

(** The last alternative of [rePropName],
    [(?=(?:\.|\[\])(?:\.|\[\]|$))]: the empty segment between two
    separators, or between a separator and the end. *)
Definition empty_segment (s : string) : bool :=
  match separator s with
  | Some EmptyString => true
  | Some rest => bool_decide (is_Some (separator rest))
  | None => false
  end.

(** [string.replace(rePropName, ...)] with
    [rePropName = /[^.[\]]+|\[(?:(-?\d+(?:\.\d+)?)|(Q)((?:(?!\2)[^\\]|\\.)*?)\2)\]|(?=(?:\.|\[\])(?:\.|\[\]|$))/g],
    where [Q] stands for the class of the two quote characters: the
    segments pushed for the matches found from the head of [s] on.  A
    run of characters other than the dot and the brackets is a segment; so
    is the number or the quoted string between two brackets; where neither
    is found the search moves on by one character, after pushing the empty
    segment where the last alternative matches.  [n] bounds the number of
    matches and is the length of the string. *)
Fixpoint rePropName (n : nat) (s : string) : list string :=
  match n, s with
  | S n', String c s' =>
    if is_special c then
      match (if Ascii.eqb c "["%char then bracket s' else None) with
      | Some (seg, rest) => seg :: rePropName n' rest
      | None =>
        if empty_segment s then "" :: rePropName n' s' else rePropName n' s'
      end
    else
      let '(seg, rest) := take_while (fun c => negb (is_special c)) s in
      seg :: rePropName n' rest
  | _, _ => []
  end.

(** [stringToPath(string)]: a leading dot pushes an empty segment of its
    own. *)
Definition stringToPath (path : string) : list string :=
  (if bool_decide (is_Some (expect "."%char path)) then [""] else [])
  ++ rePropName (String.length path) path.

(** [reIsPlainProp = /^\w*$/] *)
Definition reIsPlainProp (s : string) : bool :=
  forallb is_word (list_ascii_of_string s).

(** [reIsDeepProp = /\.|\[(?:[^[\]]*|(Q)(?:(?!\1)[^\\]|\\.)*?\1)\]/]
    matches somewhere in [s]: at a dot, or at an opening bracket that a
    closing bracket follows after characters other than brackets or after a
    quoted string. *)
Fixpoint reIsDeepProp (s : string) : bool :=
  match s with
  | EmptyString => false
  | String c s' =>
    Ascii.eqb c "."%char
    || (Ascii.eqb c "["%char
        && (bool_decide
              (is_Some (expect "]"%char
                          (take_while (fun c => negb (is_bracket c)) s').2))
            || match s' with
               | String q s'' =>
                 is_quote q && bool_decide (is_Some (match_quoted q s''))
               | EmptyString => false
               end))
    || reIsDeepProp s'
  end.

(** [isKey(path, object)] for a string [path] and a non-nullish [object]:
    [reIsPlainProp.test(path) || !reIsDeepProp.test(path) ||
     path in Object(object)].  The last test is reached for a path with a
    dot or a bracket only, and no inherited member has such a name. *)
Definition isKey (h : heap) (path : string) (object : value) : bool :=
  reIsPlainProp path || negb (reIsDeepProp path) || has_key h object path.

(** [castPath(path, object)] *)
Definition castPath (h : heap) (path : string) (object : value) : list string :=
  if isKey h path object then [path] else stringToPath path.

(** A property name without a dot or a bracket. *)
Fixpoint is_name (s : string) : bool :=
  match s with
  | EmptyString => true
  | String c s' => negb (is_special c) && is_name s'
  end.

(** The loop of [baseGet]:
    [while (object != null && index < length) object = object[path[index++]]]
    followed by [index == length ? object : undefined]. *)
Fixpoint baseGet_loop (h : heap) (object : value) (path : list string) : value :=
  match path with
  | [] => object
  | k :: rest =>
    if nullish object then undefined else baseGet_loop h (read h object k) rest
  end.

Definition baseGet (h : heap) (object : value) (path : list string) : value :=
  match path with
  | [] => undefined
  | _ => baseGet_loop h object path
  end.

(** [_.get(object, path)] *)
Definition get (h : heap) (object : value) (path : string) : value :=
  if nullish object then undefined
  else baseGet h object (castPath h path object).

(** [_.cloneDeep(value)] on tree-shaped data.  The copy of an object is
    allocated once the copies of its properties are (lodash allocates it
    first and fills it afterwards; the order of allocation cannot be
    observed).  lodash's [stack] of objects already met is left out: on a
    tree no object is met twice (where one is, the copy made here has it
    twice and lodash's has it shared; the two copies denote the same
    tree).  The recursion is bounded by the number of objects of the heap,
    which no tree of that heap exceeds in depth; when the bound or a free
    location is hit, which needs a cyclic or ill-formed heap, the result is
    [undefined]. *)
Fixpoint clone_props (rec : heap -> value -> heap * value)
    (h : heap) (o : obj) : heap * obj :=
  match o with
  | [] => (h, [])
  | (k, v) :: o' =>
    let '(h1, v') := rec h v in
    let '(h2, o'') := clone_props rec h1 o' in
    (h2, (k, v') :: o'')
  end.

Fixpoint baseClone (n : nat) (h : heap) (v : value) : heap * value :=
  match v with
  | Prim _ => (h, v)
  | Ref l =>
    match n, h !! l with
    | S n', Some o =>
      let '(h', o') := clone_props (baseClone n') h o in
      alloc o' h'
    | _, _ => (h, undefined)
    end
  end.

Definition cloneDeep (h : heap) (v : value) : heap * value :=
  baseClone (length h) h v.

(** What [_.assign] copies from a source: the own enumerable properties of
    an object, the characters of a string (which is array-like, so that
    [keys(source)] are its indices); [createAssigner] skips a falsy source,
    and a number or [true] has no own keys. *)
Definition source_props (h : heap) (source : value) : obj :=
  match source with
  | Ref l => default [] (h !! l)
  | Prim (PStr s) => string_props s
  | Prim _ => []
  end.

(** The loop of the assigner: for every key of the source, in order,
    [assignValue(object, key, source[key])], after which [object[key]] is
    [source[key]]. *)
Definition copyObject (src : obj) (o : obj) : obj :=
  foldl (fun acc k => set_prop k (get_prop k src) acc) o (keys src).

(** [_.assign(object, source)]: writes into [Object(object)] and returns
    it.  For an object that is the object itself; for a primitive it is a
    new wrapper object, modelled as a new object that starts without own
    keys (the members of a string's wrapper are left out). *)
Definition assign (h : heap) (object source : value) : heap * value :=
  match object with
  | Ref l => (alter (copyObject (source_props h source)) l h, Ref l)
  | Prim _ => alloc (copyObject (source_props h source) []) h
  end.

(** ** Reading a tree out of the heap *)

(** The tree a value denotes, each object node labelled with its
    location. *)
#[local] Unset Elimination Schemes.

Inductive ltree :=
| LLeaf (p : prim)
| LNode (l : loc) (kids : list (string * ltree)).

(** The same tree without the locations: what deep equality compares. *)
Inductive json :=
| JLeaf (p : prim)
| JNode (kids : list (string * json)).

#[local] Set Elimination Schemes.

Fixpoint erase (t : ltree) : json :=
  match t with
  | LLeaf p => JLeaf p
  | LNode _ kids => JNode (map (fun kt => (kt.1, erase kt.2)) kids)
  end.

Fixpoint locs (t : ltree) : list loc :=
  match t with
  | LLeaf _ => []
  | LNode l kids => l :: concat (map (fun kt => locs kt.2) kids)
  end.

Definition kid_locs (kids : list (string * ltree)) : list loc :=
  concat (map (fun kt => locs kt.2) kids).

Definition erase_kids (kids : list (string * ltree)) : list (string * json) :=
  map (fun kt => (kt.1, erase kt.2)) kids.

Fixpoint walk_props (rec : value -> option ltree) (o : obj)
    : option (list (string * ltree)) :=
  match o with
  | [] => Some []
  | (k, v) :: o' =>
    t ← rec v; ts ← walk_props rec o'; Some ((k, t) :: ts)
  end.

Fixpoint walk (n : nat) (h : heap) (v : value) : option ltree :=
  match v with
  | Prim p => Some (LLeaf p)
  | Ref l =>
    match n with
    | 0 => None
    | S n' =>
      o ← h !! l; kids ← walk_props (walk n' h) o; Some (LNode l kids)
    end
  end.

(** The tree rooted at [v], when [v] is tree-shaped in [h]. *)
Definition tree_of (h : heap) (v : value) : option ltree :=
  walk (length h) h v.

(** Deep equality of two values, each read in its own heap. *)
Definition deep_equal (h1 : heap) (v1 : value) (h2 : heap) (v2 : value) : Prop :=
  exists t1 t2, tree_of h1 v1 = Some t1 /\ tree_of h2 v2 = Some t2
                /\ erase t1 = erase t2.

(** ** Code outside the store *)

(** A function object passed to [subscribe]; its identity is its index in
    the list of the closures created so far. *)
Abbreviation lid := nat (only parsing).

(** What a stretch of synchronous code outside the store can do to it:
    call the functions the store returns, assign to a property of an object
    it holds a reference to, create an object, run the clean-up of an
    effect (the function [subscribe] returned), or throw. *)
Inductive action :=
| CallNotify
| CallSet (fork : value)
| CallReset
| AssignProp (l : loc) (k : string) (v : value)
| NewObject (o : obj)
| Cleanup (f : lid)
| Throw.

(** The setter [useState(false)[1]] of one hook call.  What React does
    inside [forceUpdate(always)] is React's business; it may read the heap
    and the tree and run any script of actions in response. *)
Record component := mkComponent {
  cid : nat;
  reaction : heap -> value -> list action;
}.

(** The two arrow functions the store passes to [subscribe]: the one of
    [useTree], and the one of [useSubtree] with the variables it closes
    over. *)
Inductive listener :=
| TreeListener (c : component)
| SubtreeListener (path : string) (oldEncoding : value) (c : component).

(** What a run leaves in the trace: a flush starts, [forEach] calls a
    listener, a [useSubtree] listener has resolved its path, [forceUpdate]
    is called on the component with this [cid], the host reports an
    exception. *)
Inductive event :=
| Flush
| Called (f : lid)
| Observed (f : lid) (newEncoding : value)
| Forced (c : nat)
| Uncaught.

#[global] Instance event_eq_dec : EqDecision event.
Proof. solve_decision. Defined.

(** ** The store *)

(** The variables [Store] closes over ([initial], [state], [queued],
    [listeners]) together with what they live in: the program's heap, the
    listener closures created so far, the host's timer queue, and the trace
    of the run. *)
Record store := mkStore {
  mem : heap;
  initial : value;
  state : value;
  queued : bool;
  listeners : list lid;
  closures : list listener;
  timers : nat;
  trace : list event;
}.

Definition with_mem (h : heap) (s : store) : store :=
  mkStore h (initial s) (state s) (queued s) (listeners s) (closures s)
          (timers s) (trace s).

Definition with_state (v : value) (s : store) : store :=
  mkStore (mem s) (initial s) v (queued s) (listeners s) (closures s)
          (timers s) (trace s).

Definition with_queued (b : bool) (s : store) : store :=
  mkStore (mem s) (initial s) (state s) b (listeners s) (closures s)
          (timers s) (trace s).

Definition with_listeners (ls : list lid) (s : store) : store :=
  mkStore (mem s) (initial s) (state s) (queued s) ls (closures s)
          (timers s) (trace s).

Definition with_closures (cs : list listener) (s : store) : store :=
  mkStore (mem s) (initial s) (state s) (queued s) (listeners s) cs
          (timers s) (trace s).

Definition with_timers (n : nat) (s : store) : store :=
  mkStore (mem s) (initial s) (state s) (queued s) (listeners s) (closures s)
          n (trace s).

Definition log (e : event) (s : store) : store :=
  mkStore (mem s) (initial s) (state s) (queued s) (listeners s) (closures s)
          (timers s) (trace s ++ [e]).

(** [Store(initial)], called in a program whose heap is [h]. *)
Definition Store (h : heap) (initial : value) : store :=
  let '(h', st) := cloneDeep h initial in
  mkStore h' initial st false [] [] 0 [].

(** [listeners.add(listener)] and [listeners.delete(listener)] on a [Set]
    kept in insertion order. *)
Definition set_add (f : lid) (ls : list lid) : list lid :=
  if decide (f ∈ ls) then ls else ls ++ [f].

Definition set_delete (f : lid) (ls : list lid) : list lid :=
  filter (fun g => g <> f) ls.

(** [subscribe(listener)]: [listeners.add(listener)]. *)
Definition subscribe (listener : lid) (s : store) : store :=
  with_listeners (set_add listener (listeners s)) s.

(** The function [subscribe] returns:
    [() => { listeners.delete(listener) }]. *)
Definition unsubscribe (listener : lid) (s : store) : store :=
  with_listeners (set_delete listener (listeners s)) s.

(** [setTimeout(flush, 0)]: the store hands no other callback to the host,
    so the timer queue is the number of flushes waiting. *)
Definition setTimeout (s : store) : store := with_timers (S (timers s)) s.

(** [notify()]: [if (!queued) { queued = true; setTimeout(flush, 0) }] *)
Definition notify (s : store) : store :=
  if queued s then s else setTimeout (with_queued true s).

(** The first revision exports the same function as [update]. *)
Definition update : store -> store := notify.

Definition getTree (s : store) : value := state s.

(** [state = _.cloneDeep(initial); notify()] *)
Definition reset (s : store) : store :=
  let '(h', st) := cloneDeep (mem s) (initial s) in
  notify (with_state st (with_mem h' s)).

(** [state = _.assign(state, fork); notify()] *)
Definition set (fork : value) (s : store) : store :=
  let '(h', st) := assign (mem s) (state s) fork in
  notify (with_state st (with_mem h' s)).

(** A call either returns or throws; the effects it had up to the throw
    stay. *)
Inductive outcome :=
| Returned (s : store)
| Threw (s : store).

Definition final (r : outcome) : store :=
  match r with Returned s | Threw s => s end.

Definition run_action (a : action) (s : store) : outcome :=
  match a with
  | CallNotify => Returned (notify s)
  | CallSet fork => Returned (set fork s)
  | CallReset => Returned (reset s)
  | AssignProp l k v => Returned (with_mem (write l k v (mem s)) s)
  | NewObject o => Returned (with_mem (alloc o (mem s)).1 s)
  | Cleanup f => Returned (unsubscribe f s)
  | Throw => Threw s
  end.

Fixpoint run_script (script : list action) (s : store) : outcome :=
  match script with
  | [] => Returned s
  | a :: rest =>
    match run_action a s with
    | Returned s' => run_script rest s'
    | Threw s' => Threw s'
    end
  end.

(** [forceUpdate(always)] *)
Definition forceUpdate (c : component) (s : store) : outcome :=
  run_script (reaction c (mem s) (state s)) (log (Forced (cid c)) s).

(** Calling the listener [f].  The arrow function of [useTree] is
    [() => forceUpdate(always)]; the one of [useSubtree] resolves
    [newEncoding = _.get(state, path)], returns when
    [newEncoding === oldEncoding], and otherwise sets
    [oldEncoding = newEncoding] and calls [forceUpdate(always)]. *)
Definition call (f : lid) (s : store) : outcome :=
  match closures s !! f with
  | Some (TreeListener c) => forceUpdate c (log (Called f) s)
  | Some (SubtreeListener path oldEncoding c) =>
    let newEncoding := get (mem s) (state s) path in
    let s1 := log (Observed f newEncoding) (log (Called f) s) in
    if strict_eq newEncoding oldEncoding then Returned s1
    else
      forceUpdate c
        (with_closures
           (<[f := SubtreeListener path newEncoding c]> (closures s1)) s1)
  | None => Returned s
  end.

(** [listeners.forEach(f => f())].  [Set.prototype.forEach] visits the
    entries in insertion order, each when the loop gets to it: an entry
    deleted before its turn is skipped, and an entry added while the loop
    runs is visited after the others.  The second case does not arise
    here: the reactions of components are made of [action]s, none of which
    subscribes, and effects are committed between tasks (see [command]).
    A flush during which React commits a pending effect is therefore
    outside this model; what is stated below about a flush is stated of
    the listeners registered when it starts. *)
Fixpoint forEach (todo : list lid) (s : store) : outcome :=
  match todo with
  | [] => Returned s
  | f :: rest =>
    if decide (f ∈ listeners s) then
      match call f s with
      | Returned s' => forEach rest s'
      | Threw s' => Threw s'
      end
    else forEach rest s
  end.

(** The callback [notify] hands to [setTimeout]:
    [listeners.forEach(f => f()); queued = false]. *)
Definition flush (s : store) : outcome :=
  match forEach (listeners s) (log Flush s) with
  | Returned s' => Returned (with_queued false s')
  | Threw s' => Threw s'
  end.

(** An exception that leaves a timer callback is reported by the host; the
    callback is over. *)
Definition report (r : outcome) : store :=
  match r with
  | Returned s' => s'
  | Threw s' => log Uncaught s'
  end.

(** The event loop runs one due timer. *)
Definition tick (s : store) : store :=
  match timers s with
  | 0 => s
  | S n => report (flush (with_timers n s))
  end.

(** The effect of [useTree]: a new arrow function is subscribed.  The
    result is the store and the identity of the listener, which stands for
    the clean-up function the effect returns. *)
Definition new_closure (fn : listener) (s : store) : store * lid :=
  (with_closures (closures s ++ [fn]) s, length (closures s)).

Definition useTree_effect (c : component) (s : store) : store * lid :=
  let '(s1, f) := new_closure (TreeListener c) s in (subscribe f s1, f).

(** The effect of [useSubtree(path)]. *)
Definition useSubtree_effect (path : string) (c : component) (s : store)
    : store * lid :=
  let oldEncoding := get (mem s) (state s) path in
  let '(s1, f) := new_closure (SubtreeListener path oldEncoding c) s in
  (subscribe f s1, f).

(** The two call sites of [subscribe]. *)
Inductive hook :=
| UseTree
| UseSubtree (path : string).

(** One run of the effect of a hook call made by the component [c]. *)
Definition effect (k : hook) (c : component) (s : store) : store * lid :=
  match k with
  | UseTree => useTree_effect c s
  | UseSubtree path => useSubtree_effect path c s
  end.

(** What the two hooks return to the component that renders. *)
Definition useTree (s : store) : value := state s.

Definition useSubtree (path : string) (s : store) : value :=
  get (mem s) (state s) path.

(** One thing that happens at the top level of the event loop: a task of
    action code, the commit of an effect by React, or a timer coming
    due. *)
Inductive command :=
| Run (script : list action)
| MountTree (c : component)
| MountSubtree (path : string) (c : component)
| Yield.

Definition step (s : store) (c : command) : store :=
  match c with
  | Run script => final (run_script script s)
  | MountTree c => (useTree_effect c s).1
  | MountSubtree path c => (useSubtree_effect path c s).1
  | Yield => tick s
  end.

Definition run (cs : list command) (s : store) : store := foldl step s cs.

(** ** Executions *)

(** The steps a listener call is made of: the call enters the arrow
    function (up to and including the call of [forceUpdate], when it gets
    there), and each action of React's reaction is a step of its own. *)
Inductive listener_step : store -> store -> Prop :=
| step_action a s :
    listener_step s (final (run_action a s))
| step_tree f c s :
    f ∈ listeners s ->
    closures s !! f = Some (TreeListener c) ->
    listener_step s (log (Forced (cid c)) (log (Called f) s))
| step_same f path old c s :
    f ∈ listeners s ->
    closures s !! f = Some (SubtreeListener path old c) ->
    strict_eq (get (mem s) (state s) path) old = true ->
    listener_step s
      (log (Observed f (get (mem s) (state s) path)) (log (Called f) s))
| step_changed f path old c s :
    f ∈ listeners s ->
    closures s !! f = Some (SubtreeListener path old c) ->
    strict_eq (get (mem s) (state s) path) old = false ->
    listener_step s
      (log (Forced (cid c))
         (with_closures
            (<[f := SubtreeListener path (get (mem s) (state s) path) c]>
               (closures s))
            (log (Observed f (get (mem s) (state s) path))
               (log (Called f) s)))).

(** The steps of a whole execution: those of listener calls and of action
    code, the start and the end of a flush, the host's report of an
    exception, and the commit of an effect. *)
Inductive micro : store -> store -> Prop :=
| micro_listener s s' :
    listener_step s s' -> micro s s'
| micro_flush_begin n s :
    timers s = S n -> micro s (log Flush (with_timers n s))
| micro_flush_end s :
    micro s (with_queued false s)
| micro_uncaught s :
    micro s (log Uncaught s)
| micro_mount_tree c s :
    micro s (useTree_effect c s).1
| micro_mount_subtree path c s :
    micro s (useSubtree_effect path c s).1.

(** The pending-flush flag says whether a flush is waiting in the timer
    queue. *)
Definition flag_tracks_timer (s : store) : Prop :=
  (queued s = false /\ timers s = 0) \/ (queued s = true /\ timers s = 1).

(** The actions that end in [notify()]. *)
Definition requests_flush (a : action) : bool :=
  match a with
  | CallNotify | CallSet _ | CallReset => true
  | _ => false
  end.

(** A script gets to call [notify()] at least once: one of its actions
    requests a flush and no [Throw] comes before it. *)
Fixpoint flush_requested (script : list action) : bool :=
  match script with
  | [] => false
  | Throw :: _ => false
  | a :: rest => requests_flush a || flush_requested rest
  end.

(** The history of one [useSubtree] listener in a trace: the value it
    resolved at each of its calls, and whether the call went on to
    [forceUpdate] of its component. *)
Definition forced_next (c : component) (tr : list event) : bool :=
  match tr with
  | Forced n :: _ => bool_decide (n = cid c)
  | _ => false
  end.

Fixpoint history (f : lid) (c : component) (tr : list event)
    : list (value * bool) :=
  match tr with
  | [] => []
  | Observed g v :: tr' =>
    if decide (g = f) then (v, forced_next c tr') :: history f c tr'
    else history f c tr'
  | _ :: tr' => history f c tr'
  end.

(** What the comparison with the previous value prescribes for a run of
    resolved values, [old] being the value before the first of them. *)
Fixpoint filtered (old : value) (vs : list value) : list (value * bool) :=
  match vs with
  | [] => []
  | v :: vs' => (v, negb (strict_eq v old)) :: filtered v vs'
  end.

(** The listeners a trace shows being called, and the number of flushes
    it shows starting. *)
Fixpoint calls_of (tr : list event) : list lid :=
  match tr with
  | [] => []
  | Called f :: tr' => f :: calls_of tr'
  | _ :: tr' => calls_of tr'
  end.

Fixpoint flushes (tr : list event) : nat :=
  match tr with
  | [] => 0
  | Flush :: tr' => S (flushes tr')
  | _ :: tr' => flushes tr'
  end.

(** The listener [f] exists and is not registered. *)
Definition gone (f : lid) (s : store) : Prop :=
  (f ∉ listeners s) /\ f < length (closures s).

(** A stretch of trace that does not open with a [Forced]. *)
Definition quiet_head (tr : list event) : Prop :=
  match tr with
  | Forced _ :: _ => False
  | _ => True
  end.

(** The last of a run of values, [old] when there is none. *)
Definition last_or (old : value) (vs : list value) : value :=
  default old (last vs).

(** A stretch of trace that does not open in the middle of a listener
    call. *)
Definition call_head (tr : list event) : Prop :=
  match tr with
  | Observed _ _ :: _ | Forced _ :: _ => False
  | _ => True
  end.

(** Every call of the listener [f] that a trace shows is followed at once
    by the value [f] resolved. *)
Definition observed_next (f : lid) (tr : list event) : bool :=
  match tr with
  | Observed g _ :: _ => bool_decide (g = f)
  | _ => false
  end.

Fixpoint calls_resolve (f : lid) (tr : list event) : bool :=
  match tr with
  | [] => true
  | Called g :: tr' =>
    (if decide (g = f) then observed_next f tr' else true)
    && calls_resolve f tr'
  | _ :: tr' => calls_resolve f tr'
  end.

(** What holds between two stores when the second is what some steps made
    of the first: the trace has grown by a stretch [tr], every call of the
    [useSubtree(path)] listener [f] of component [c] in [tr] resolved a
    value and went on to [forceUpdate] exactly where the comparison with
    its previous value prescribes, and its [oldEncoding] is the last value
    it resolved. *)
Definition tracked (f : lid) (path : string) (c : component)
    (s s' : store) : Prop :=
  forall old,
    closures s !! f = Some (SubtreeListener path old c) ->
    exists tr,
      trace s' = trace s ++ tr
      /\ call_head tr
      /\ calls_resolve f tr = true
      /\ history f c tr = filtered old (history f c tr).*1
      /\ closures s' !! f
         = Some (SubtreeListener path (last_or old (history f c tr).*1) c).

(** ** Further notions *)

(** At most one flush waits in the timer queue, and the flag is set while
    it does. *)
Definition pending_ok (s : store) : Prop :=
  timers s = 0 \/ (timers s = 1 /\ queued s = true).

(** The registry holds no listener twice, and every listener it holds is a
    closure that exists. *)
Definition registry_ok (s : store) : Prop :=
  NoDup (listeners s)
  /\ Forall (fun g => g < length (closures s)) (listeners s).

(** Every call of the listener [f] that a trace shows is followed at once
    by [forceUpdate] of the component [c]. *)
Fixpoint calls_forced (f : lid) (c : component) (tr : list event) : bool :=
  match tr with
  | [] => true
  | Called g :: tr' =>
    (if decide (g = f) then forced_next c tr' else true)
    && calls_forced f c tr'
  | _ :: tr' => calls_forced f c tr'
  end.

(** What holds between two stores when the second is what some steps made
    of the first, for the [useTree] listener [f] of component [c]. *)
Definition tree_tracked (f : lid) (c : component) (s s' : store) : Prop :=
  closures s !! f = Some (TreeListener c) ->
  exists tr,
    trace s' = trace s ++ tr
    /\ quiet_head tr
    /\ calls_forced f c tr = true
    /\ closures s' !! f = Some (TreeListener c).

(** An action that assigns to a property does so on an object allocated at
    location [n] or later. *)
Definition writes_from (n : nat) (a : action) : bool :=
  match a with
  | AssignProp l _ _ => bool_decide (n <= l)
  | _ => true
  end.

(** What a stretch of action code keeps true of a store constructed in the
    heap [h] from [init], as long as it leaves the objects of [h] alone:
    [initial] is [init], the objects of [h] are as they were, and the tree
    is not one of them. *)
Definition apart (h : heap) (init : value) (s : store) : Prop :=
  initial s = init
  /\ length h <= length (mem s)
  /\ (forall l, l < length h -> mem s !! l = h !! l)
  /\ (forall l, state s = Ref l -> length h <= l).

(** ** The actions of the README *)

(** [ToBoolean] and [!v]. *)
Definition truthy (v : value) : bool :=
  match v with
  | Prim PUndef | Prim PNull | Prim PNaN => false
  | Prim (PBool b) => b
  | Prim (PNum n) => negb (Z.eqb n 0)
  | Prim (PStr s) => negb (String.eqb s "")
  | Ref _ => true
  end.

Definition js_not (v : value) : value := Prim (PBool (negb (truthy v))).

(** [toggleCartOpen]:
    [const cart = cartStore.getTree(); cart.open = !cart.open;
     cartStore.update()].
    The README's code is a module, hence strict: assigning to a property of
    a primitive throws, as reading a property of [null] or [undefined]
    does. *)
Definition toggleCartOpen (s : store) : outcome :=
  match getTree s with
  | Ref l =>
    Returned
      (update
         (with_mem (write l "open" (js_not (read (mem s) (Ref l) "open")) (mem s))
            s))
  | Prim _ => Threw s
  end.

(** ** Examples *)

Definition quiet (n : nat) : component := mkComponent n (fun _ _ => []).

Definition cart_heap : heap :=
  [[("open", Prim (PBool false)); ("total", Prim (PNum 0))];
   [("open", Prim (PBool true))]].

(** [Store({open: false, total: 0})] in a program that also holds the
    object [{open: true}]. *)
Definition cart : store := Store cart_heap (Ref 0).


(** [Store(initial)] for [initial = {summary: {total: 0}}]. *)
Definition summary_heap : heap :=
  [[("total", Prim (PNum 0))]; [("summary", Ref 0)]].

Definition summary_store : store := Store summary_heap (Ref 1).

(** The caller runs [initial.summary.total = 5] and then [reset()]. *)
Definition summary_store_reset : store :=
  final (run_script [AssignProp 0 "total" (Prim (PNum 5)); CallReset]
           summary_store).

(** The caller of [cart] runs [initial.total = 7] and then [reset()]. *)
Definition cart_reset_after_write : store :=
  final (run_script [AssignProp 0 "total" (Prim (PNum 7)); CallReset] cart).



(** A component whose re-render writes [total] and calls [notify()]. *)
Definition reentrant : component :=
  mkComponent 2
    (fun _ _ => [AssignProp 2 "total" (Prim (PNum 5)); CallNotify]).

(** A [useSubtree("total")] subscriber and the re-entrant component are
    mounted on [cart]; action code calls [notify()] and the timer fires. *)
Definition cart_reentrant : store :=
  run [MountSubtree "total" (quiet 1); MountTree reentrant;
       Run [CallNotify]; Yield] cart.

(** A component whose re-render throws. *)
Definition thrower : component := mkComponent 1 (fun _ _ => [Throw]).

(** The thrower and a quiet component are mounted on [cart] and action
    code has called [notify()]. *)
Definition cart_thrower : store :=
  run [MountTree thrower; MountTree (quiet 2); Run [CallNotify]] cart.


(** The timer has fired on [cart_thrower]: the thrower's exception has
    ended the flush. *)
Definition cart_stuck : store :=
  run [MountTree thrower; MountTree (quiet 2); Run [CallNotify]; Yield] cart.

(** [Store({total: NaN})] with a [useSubtree("total")] subscriber. *)
Definition nan_heap : heap := [[("total", Prim PNaN)]].

Definition nan_cart : store :=
  run [MountSubtree "total" (quiet 1)] (Store nan_heap (Ref 0)).

(** Three scenarios on the shopping cart.  In each, a
    [useTree] listener (component 1) and [useSubtree] listeners are mounted
    before action code runs and the timer fires. *)
Definition scenario_set : store :=
  run [MountTree (quiet 1); MountSubtree "total" (quiet 2);
       Run [CallSet (Ref 1)]; Yield] cart.

(** [getTree().summary.total = 5; notify()]: the copy of [summary] that the
    state holds is object 2. *)
Definition scenario_write_leaf : store :=
  run [MountSubtree "summary" (quiet 1); MountSubtree "summary.total" (quiet 2);
       Run [AssignProp 2 "total" (Prim (PNum 5)); CallNotify]; Yield]
      summary_store.

(** [getTree().summary = {total: 0}; notify()]: the state is object 3 and
    the new object is object 4. *)
Definition scenario_reassign : store :=
  run [MountSubtree "summary" (quiet 1); MountSubtree "summary.total" (quiet 2);
       Run [NewObject [("total", Prim (PNum 0))];
            AssignProp 3 "summary" (Ref 4); CallNotify]; Yield]
      summary_store.


(** Two quiet [useTree] components are mounted on [cart] and action code
    has called [notify()]. *)
Definition cart_two_quiet : store :=
  run [MountTree (quiet 1); MountTree (quiet 2); Run [CallNotify]] cart.


(** A [useSubtree("total")] subscriber is mounted on [cart]. *)
Definition cart_total_subscriber : store :=
  (useSubtree_effect "total" (quiet 2) cart).1.

(** A [useSubtree("open")] subscriber is mounted on [cart]. *)
Definition cart_open_subscriber : store :=
  (useSubtree_effect "open" (quiet 3) cart).1.


(** A [useSubtree("summary")] subscriber is mounted on [summary_store]. *)
Definition summary_subscriber : store :=
  (useSubtree_effect "summary" (quiet 1) summary_store).1.

(** * Properties *)

(** Closed statements about the example stores are checked by running the
    definitions. *)
Ltac by_computation :=
  repeat match goal with |- _ /\ _ => split end; vm_compute; reflexivity.

(** ** The scenarios *)

(** [set({open: true})]: the [useTree] listener fires, the ["total"]
    listener is called and does not fire, and [open] is [true]. *)
Example scenario_set_runs :
  trace scenario_set
  = [Flush; Called 0; Forced 1; Called 1; Observed 1 (Prim (PNum 0))]
  /\ get (mem scenario_set) (getTree scenario_set) "open" = Prim (PBool true)
  /\ queued scenario_set = false.
Proof. by_computation. Qed.

(** A leaf written in place: ["summary"] is the same object and does not
    fire, ["summary.total"] went from 0 to 5 and fires. *)
Example scenario_write_leaf_runs :
  trace scenario_write_leaf
  = [Flush; Called 0; Observed 0 (Ref 2);
     Called 1; Observed 1 (Prim (PNum 5)); Forced 2].
Proof. by_computation. Qed.

(** [summary] reassigned to a new object with the same content:
    ["summary"] fires, ["summary.total"] does not. *)
Example scenario_reassign_runs :
  trace scenario_reassign
  = [Flush; Called 0; Observed 0 (Ref 4); Forced 1;
     Called 1; Observed 1 (Prim (PNum 0))].
Proof. by_computation. Qed.

(** [_.get] on the paths of the README. *)
Example get_paths :
  stringToPath "summary.total" = ["summary"; "total"]
  /\ get summary_heap (Ref 1) "summary.total" = Prim (PNum 0)
  /\ get summary_heap (Ref 1) "summary" = Ref 0
  /\ get summary_heap (Ref 1) "summary.tax" = undefined
  /\ get summary_heap (Ref 1) "total.summary" = undefined
  /\ get [[("a.b", Prim (PNum 1))]] (Ref 0) "a.b" = Prim (PNum 1).
Proof. by_computation. Qed.

(** ** Object records *)

Section props.
Implicit Types (o src : obj) (k : string) (v : value).

Lemma lookup_set_prop_eq k v o : lookup_prop k (set_prop k v o) = Some v.
Proof.
  induction o as [|[k' v'] o IH]; simpl.
  - by rewrite decide_True.
  - destruct (decide (k = k')) as [->|Hne]; simpl.
    + by rewrite decide_True.
    + by rewrite decide_False.
Qed.

Lemma lookup_set_prop_ne k k' v o :
  k <> k' -> lookup_prop k' (set_prop k v o) = lookup_prop k' o.
Proof.
  intros Hne. induction o as [|[k2 v2] o IH]; simpl.
  - by rewrite decide_False.
  - destruct (decide (k = k2)) as [->|Hne2]; simpl.
    + by rewrite !decide_False.
    + destruct (decide (k' = k2)); [done | apply IH].
Qed.

Lemma lookup_prop_keys k o : is_Some (lookup_prop k o) <-> k ∈ keys o.
Proof.
  unfold keys. induction o as [|[k' v'] o IH]; simpl.
  - split; [by intros [? ?] | by intros ?%elem_of_nil].
  - destruct (decide (k = k')) as [->|Hne].
    + split; [intros _; apply list_elem_of_here | by eauto].
    + rewrite IH, elem_of_cons. tauto.
Qed.

(** The keys of the source are written, every other key is left alone. *)
Lemma lookup_copyObject src k o :
  lookup_prop k (copyObject src o) =
  if decide (k ∈ keys src) then Some (get_prop k src) else lookup_prop k o.
Proof.
  unfold copyObject. generalize (keys src) as ks. intros ks. revert o.
  induction ks as [|k0 ks IH]; intros o; cbn [foldl].
  - by rewrite decide_False by apply not_elem_of_nil.
  - rewrite IH. destruct (decide (k ∈ ks)) as [Hin|Hnin].
    + rewrite decide_True; [done | by apply list_elem_of_further].
    + destruct (decide (k = k0)) as [->|Hne].
      * rewrite decide_True by apply list_elem_of_here.
        apply lookup_set_prop_eq.
      * rewrite decide_False by (rewrite elem_of_cons; tauto).
        by apply lookup_set_prop_ne.
Qed.

(** The properties of a string. *)
Lemma lookup_index_props cs : forall n i c,
  cs !! i = Some c ->
  lookup_prop (index_key (n + i)) (index_props n cs)
  = Some (Prim (PStr (String c ""))).
Proof.
  induction cs as [|c0 cs IH]; intros n i c Hi; [done|].
  destruct i as [|i]; simpl in *.
  - injection Hi as ->. by rewrite Nat.add_0_r, decide_True.
  - rewrite decide_False.
    + replace (n + S i) with (S n + i) by lia. by apply IH.
    + unfold index_key. intros Heq%(inj pretty). lia.
Qed.

Lemma lookup_index_props_None cs k : forall n,
  (forall i, i < length cs -> k <> index_key (n + i)) ->
  lookup_prop k (index_props n cs) = None.
Proof.
  induction cs as [|c0 cs IH]; intros n Hk; [done|]. simpl.
  rewrite decide_False.
  - apply IH. intros i Hi. replace (S n + i) with (n + S i) by lia.
    apply Hk. simpl. lia.
  - specialize (Hk 0). rewrite Nat.add_0_r in Hk. apply Hk. simpl. lia.
Qed.

Lemma length_list_ascii_of_string (str : string) :
  length (list_ascii_of_string str) = String.length str.
Proof. induction str as [|c str IH]; simpl; [done | by rewrite IH]. Qed.

Lemma lookup_string_props (str : string) i c :
  list_ascii_of_string str !! i = Some c ->
  lookup_prop (index_key i) (string_props str)
  = Some (Prim (PStr (String c ""))).
Proof. apply (lookup_index_props _ 0 i c). Qed.

Lemma lookup_string_props_None (str : string) k :
  (forall i, i < String.length str -> k <> index_key i) ->
  lookup_prop k (string_props str) = None.
Proof.
  intros Hk. apply lookup_index_props_None. intros i Hi.
  apply Hk. by rewrite <- length_list_ascii_of_string.
Qed.
End props.

(** ** Trees in the heap *)

Section trees.
Implicit Types (h e : heap) (v : value) (t : ltree) (o : obj).

(** Reading a tree only looks at the objects of the tree. *)
Lemma walk_agree n : forall h h' v t,
  walk n h v = Some t ->
  (forall l, l ∈ locs t -> h' !! l = h !! l) ->
  walk n h' v = Some t.
Proof.
  induction n as [|n IH]; intros h h' [p|l] t Hw Hag; simpl in *; try done.
  destruct (h !! l) as [o|] eqn:Hl; simpl in Hw; [|done].
  destruct (walk_props (walk n h) o) as [kids|] eqn:Hk; simpl in Hw; [|done].
  injection Hw as <-. simpl in Hag.
  rewrite (Hag l), Hl by apply list_elem_of_here. simpl.
  assert (walk_props (walk n h') o = Some kids) as ->; [|done].
  assert (forall l', l' ∈ kid_locs kids -> h' !! l' = h !! l') as Hag'.
  { intros l' Hl'. apply Hag. by apply list_elem_of_further. }
  clear Hag Hl. revert kids Hk Hag'.
  induction o as [|[k v] o IHo]; intros kids Hk Hag; simpl in *; [done|].
  destruct (walk n h v) as [t|] eqn:Hv; simpl in Hk; [|done].
  destruct (walk_props (walk n h) o) as [ts|] eqn:Hts; simpl in Hk; [|done].
  injection Hk as <-. unfold kid_locs in Hag. simpl in Hag.
  rewrite (IH h h' v t Hv), (IHo ts eq_refl); [done | |].
  - intros l' Hl'. apply Hag, elem_of_app. by right.
  - intros l' Hl'. apply Hag, elem_of_app. by left.
Qed.

(** The objects of a tree are objects of the heap. *)
Lemma walk_locs_lt n : forall h v t,
  walk n h v = Some t -> Forall (fun l => l < length h) (locs t).
Proof.
  induction n as [|n IH]; intros h [p|l] t Hw; simpl in *; try done.
  { injection Hw as <-. constructor. }
  { injection Hw as <-. constructor. }
  destruct (h !! l) as [o|] eqn:Hl; simpl in Hw; [|done].
  destruct (walk_props (walk n h) o) as [kids|] eqn:Hk; simpl in Hw; [|done].
  injection Hw as <-. simpl. constructor.
  { by eapply lookup_lt_Some. }
  clear Hl. revert kids Hk.
  induction o as [|[k v] o IHo]; intros kids Hk; simpl in *.
  { injection Hk as <-. constructor. }
  destruct (walk n h v) as [t|] eqn:Hv; simpl in Hk; [|done].
  destruct (walk_props (walk n h) o) as [ts|] eqn:Hts; simpl in Hk; [|done].
  injection Hk as <-. simpl. apply Forall_app. split; [by eapply IH | by apply IHo].
Qed.

(** Objects allocated later do not change the trees already there. *)
Lemma walk_app n h e v t : walk n h v = Some t -> walk n (h ++ e) v = Some t.
Proof.
  intros Hw. eapply walk_agree; [done|]. intros l Hl.
  apply lookup_app_l.
  pose proof (walk_locs_lt _ _ _ _ Hw) as Hlt.
  rewrite Forall_forall in Hlt. by apply Hlt.
Qed.

Lemma walk_agree_props_app n h e o kids :
  walk_props (walk n h) o = Some kids ->
  walk_props (walk n (h ++ e)) o = Some kids.
Proof.
  revert kids. induction o as [|[k v] o IHo]; intros kids Hk; simpl in *; [done|].
  destruct (walk n h v) as [t|] eqn:Hv; simpl in Hk; [|done].
  destruct (walk_props (walk n h) o) as [ts|] eqn:Hts; simpl in Hk; [|done].
  injection Hk as <-.
  by rewrite (walk_app _ _ e _ _ Hv), (IHo ts eq_refl).
Qed.

Lemma walk_fuel n : forall m h v t,
  walk n h v = Some t -> n <= m -> walk m h v = Some t.
Proof.
  induction n as [|n IH]; intros m h [p|l] t Hw Hle; simpl in *; try done.
  { by destruct m. }
  { by destruct m. }
  destruct m as [|m]; [lia|]. simpl.
  destruct (h !! l) as [o|] eqn:Hl; simpl in *; [|done].
  destruct (walk_props (walk n h) o) as [kids|] eqn:Hk; simpl in Hw; [|done].
  injection Hw as <-.
  assert (walk_props (walk m h) o = Some kids) as ->; [|done].
  clear Hl. revert kids Hk.
  induction o as [|[k v] o IHo]; intros kids Hk; simpl in *; [done|].
  destruct (walk n h v) as [t|] eqn:Hv; simpl in Hk; [|done].
  destruct (walk_props (walk n h) o) as [ts|] eqn:Hts; simpl in Hk; [|done].
  injection Hk as <-.
  rewrite (IH m h v t Hv), (IHo ts eq_refl); [done | lia].
Qed.

(** The number of objects of a tree is fuel enough to read it. *)
Lemma walk_enough n : forall h v t,
  walk n h v = Some t -> walk (length (locs t)) h v = Some t.
Proof.
  induction n as [|n IH]; intros h [p|l] t Hw; simpl in Hw; try done.
  { by injection Hw as <-. }
  { by injection Hw as <-. }
  destruct (h !! l) as [o|] eqn:Hl; simpl in Hw; [|done].
  destruct (walk_props (walk n h) o) as [kids|] eqn:Hk; simpl in Hw; [|done].
  injection Hw as <-. simpl. rewrite Hl. simpl.
  assert (forall m, length (kid_locs kids) <= m ->
            walk_props (walk m h) o = Some kids) as ->; [|done|done].
  clear Hl. revert kids Hk.
  induction o as [|[k v] o IHo]; intros kids Hk m Hm; simpl in *; [done|].
  destruct (walk n h v) as [t|] eqn:Hv; simpl in Hk; [|done].
  destruct (walk_props (walk n h) o) as [ts|] eqn:Hts; simpl in Hk; [|done].
  injection Hk as <-. unfold kid_locs in Hm. simpl in Hm.
  rewrite length_app in Hm.
  rewrite (walk_fuel _ m _ _ _ (IH h v t Hv)) by lia. simpl.
  rewrite (IHo ts eq_refl m) by (unfold kid_locs; lia). done.
Qed.

(** A value that denotes a tree with no object occurring twice is read by
    [tree_of]: the bound that [tree_of] and [cloneDeep] put on the
    recursion, the number of objects of the heap, is never hit on it. *)
Lemma tree_of_complete n h v t :
  walk n h v = Some t -> NoDup (locs t) -> tree_of h v = Some t.
Proof.
  intros Hw Hnd. unfold tree_of.
  eapply walk_fuel; [by eapply walk_enough|].
  pose proof (walk_locs_lt _ _ _ _ Hw) as Hlt.
  rewrite Forall_forall in Hlt.
  assert (locs t ⊆+ seq 0 (length h)) as Hsub.
  { apply NoDup_submseteq; [done|].
    intros l Hl. apply elem_of_seq. specialize (Hlt l Hl). lia. }
  apply submseteq_length in Hsub. by rewrite length_seq in Hsub.
Qed.

(** A write to an object outside a tree leaves the tree as it is. *)
Lemma walk_write n h v t l k w :
  walk n h v = Some t -> l ∉ locs t -> walk n (write l k w h) v = Some t.
Proof.
  intros Hw Hl. eapply walk_agree; [done|]. intros l' Hl'.
  unfold write. apply list_lookup_alter_ne. by intros ->.
Qed.
End trees.

(** ** [_.cloneDeep] *)

Section clone.
Implicit Types (h e : heap) (v : value) (t : ltree) (o : obj).

(** On a tree, [baseClone] only allocates; the copy denotes the same
    tree up to locations, and all its objects are new. *)
Lemma baseClone_spec n : forall h v t,
  walk n h v = Some t ->
  exists e v' t',
    baseClone n h v = (h ++ e, v')
    /\ walk n (h ++ e) v' = Some t'
    /\ erase t' = erase t
    /\ Forall (fun l => length h <= l) (locs t').
Proof.
  induction n as [|n IH]; intros h [p|l] t Hw; simpl in Hw; try done.
  { exists [], (Prim p), t. rewrite app_nil_r. injection Hw as <-.
    repeat split; simpl; auto. }
  { exists [], (Prim p), t. rewrite app_nil_r. injection Hw as <-.
    repeat split; simpl; auto. }
  destruct (h !! l) as [o|] eqn:Hl; simpl in Hw; [|done].
  destruct (walk_props (walk n h) o) as [kids|] eqn:Hk; simpl in Hw; [|done].
  injection Hw as <-.
  assert (exists e o' kids',
    clone_props (baseClone n) h o = (h ++ e, o')
    /\ walk_props (walk n (h ++ e)) o' = Some kids'
    /\ erase_kids kids' = erase_kids kids
    /\ Forall (fun l => length h <= l) (kid_locs kids')) as Hprops.
  { clear Hl. revert h kids Hk.
    induction o as [|[k v] o IHo]; intros h kids Hk; simpl in Hk.
    { injection Hk as <-. exists [], [], []. rewrite app_nil_r.
      repeat split; simpl; auto. }
    destruct (walk n h v) as [t|] eqn:Hv; simpl in Hk; [|done].
    destruct (walk_props (walk n h) o) as [ts|] eqn:Hts; simpl in Hk; [|done].
    injection Hk as <-.
    destruct (IH h v t Hv) as (e1 & v' & t' & Hc & Hw' & He & Hf).
    destruct (IHo (h ++ e1) ts) as (e2 & o' & ts' & Hc2 & Hw2 & He2 & Hf2).
    { eapply walk_agree_props_app. exact Hts. }
    exists (e1 ++ e2), ((k, v') :: o'), ((k, t') :: ts').
    simpl. rewrite Hc, Hc2, app_assoc. split; [done|].
    rewrite (walk_app _ _ e2 _ _ Hw'), Hw2. simpl. split; [done|].
    split.
    { unfold erase_kids in *. simpl. by rewrite He, He2. }
    unfold kid_locs in *. simpl. apply Forall_app. split; [done|].
    eapply Forall_impl; [exact Hf2|]. simpl. intros l'.
    rewrite length_app. lia. }
  destruct Hprops as (e & o' & kids' & Hc & Hw' & He & Hf).
  exists (e ++ [o']), (Ref (length (h ++ e))), (LNode (length (h ++ e)) kids').
  simpl. rewrite Hl, Hc. unfold alloc. rewrite app_assoc. split; [done|].
  rewrite list_lookup_middle by done. simpl.
  rewrite (walk_agree_props_app n (h ++ e) [o'] o' kids' Hw'). simpl.
  split; [done|]. split.
  { f_equal. exact He. }
  constructor; [rewrite length_app; lia | exact Hf].
Qed.

Lemma cloneDeep_spec h v t :
  tree_of h v = Some t ->
  exists e v' t',
    cloneDeep h v = (h ++ e, v')
    /\ tree_of (h ++ e) v' = Some t'
    /\ erase t' = erase t
    /\ Forall (fun l => length h <= l) (locs t').
Proof.
  unfold tree_of, cloneDeep. intros Hw.
  destruct (baseClone_spec _ _ _ _ Hw) as (e & v' & t' & Hc & Hw' & He & Hf).
  exists e, v', t'. repeat split; try done.
  eapply walk_fuel; [exact Hw'|]. rewrite length_app. lia.
Qed.

Lemma walk_ref_inv n h l t :
  walk n h (Ref l) = Some t -> exists kids, t = LNode l kids.
Proof.
  destruct n as [|n]; simpl; [done|].
  destruct (h !! l) as [o|]; simpl; [|done].
  destruct (walk_props (walk n h) o) as [kids|]; simpl; [|done].
  intros [= <-]. by exists kids.
Qed.

Lemma walk_prim_inv n h p t : walk n h (Prim p) = Some t -> t = LLeaf p.
Proof. destruct n; simpl; by intros [= <-]. Qed.

(** The copy of an object is an object, and a new one. *)
Lemma cloneDeep_ref h l t :
  tree_of h (Ref l) = Some t ->
  exists l', (cloneDeep h (Ref l)).2 = Ref l' /\ length h <= l'.
Proof.
  intros Hw. destruct (cloneDeep_spec _ _ _ Hw) as (e & v' & t' & Hc & Hw' & He & Hf).
  rewrite Hc. simpl. unfold tree_of in Hw, Hw'.
  apply walk_ref_inv in Hw as [kids ->].
  destruct v' as [p|l'].
  - apply walk_prim_inv in Hw' as ->. done.
  - exists l'. split; [done|].
    apply walk_ref_inv in Hw' as [kids' ->]. simpl in Hf. by inversion Hf.
Qed.
End clone.

(** ** The state container *)

Section container.
Implicit Types (s : store) (h : heap) (v fork : value).

Lemma notify_fields s :
  mem (notify s) = mem s /\ initial (notify s) = initial s
  /\ state (notify s) = state s /\ listeners (notify s) = listeners s
  /\ closures (notify s) = closures s /\ trace (notify s) = trace s.
Proof. unfold notify. by destruct (queued s). Qed.

Lemma mem_notify s : mem (notify s) = mem s.
Proof. apply notify_fields. Qed.

Lemma state_notify s : state (notify s) = state s.
Proof. apply notify_fields. Qed.

Lemma with_state_same s : with_state (state s) s = s.
Proof. by destruct s. Qed.

(** What [set] does when the tree is an object. *)
Lemma set_object s fork l :
  state s = Ref l ->
  set fork s =
  notify (with_mem (alter (copyObject (source_props (mem s) fork)) l (mem s)) s).
Proof.
  intros Hst. unfold set, assign. rewrite Hst. simpl.
  f_equal. destruct s; simpl in *. by rewrite Hst.
Qed.

Lemma read_source h fork k :
  k ∈ keys (source_props h fork) -> get_prop k (source_props h fork) = read h fork k.
Proof.
  destruct fork as [p|lf]; simpl.
  - destruct p; try by intros ?%elem_of_nil.
    intros [v Hv]%lookup_prop_keys. unfold get_prop. by rewrite Hv.
  - destruct (h !! lf); simpl; [done | by intros ?%elem_of_nil].
Qed.
End container.



(** [set({open: true})], [set("ab")] and [set(7)] on the cart. *)
Example set_forks :
  mem (set (Ref 1) cart) !! 2
  = Some [("open", Prim (PBool true)); ("total", Prim (PNum 0))]
  /\ mem (set (Prim (PStr "ab")) cart) !! 2
     = Some [("open", Prim (PBool false)); ("total", Prim (PNum 0));
             ("0", Prim (PStr "a")); ("1", Prim (PStr "b"))]
  /\ mem (set (Prim (PNum 7)) cart) !! 2
     = Some [("open", Prim (PBool false)); ("total", Prim (PNum 0))].
Proof. by_computation. Qed.

(** C10.  When the tree is an object, [getTree()] returns the same
    reference before and after [set(fork)], and reading a key of [fork]
    through that reference after the call gives [fork]'s value; no action
    other than [reset()] changes what [getTree()] returns; [reset()]
    makes it a reference to an object that did not exist before. *)
Theorem set_keeps_state_reference (s : store) (l : loc) (o : obj) :
  getTree s = Ref l -> mem s !! l = Some o ->
  (forall fork,
     getTree (set fork s) = Ref l
     /\ forall k, k ∈ keys (source_props (mem s) fork) ->
          read (mem (set fork s)) (Ref l) k = read (mem s) fork k)
  /\ (forall a, a <> CallReset -> getTree (final (run_action a s)) = Ref l)
  /\ (forall li t,
        initial s = Ref li -> tree_of (mem s) (initial s) = Some t ->
        exists l', getTree (reset s) = Ref l' /\ l' <> l
                   /\ length (mem s) <= l').
Proof.
  unfold getTree. intros Hst Hl.
  assert (forall fork, state (set fork s) = Ref l) as Hset.
  { intros fork. by rewrite (set_object _ _ _ Hst), state_notify. }
  split; [|split].
  - intros fork. split; [done|]. intros k Hk.
    rewrite (set_object _ _ _ Hst), mem_notify. simpl.
    rewrite list_lookup_alter_eq, Hl. simpl. unfold get_prop.
    rewrite lookup_copyObject, decide_True by done. simpl.
    by apply read_source.
  - intros [] Hne; simpl; try done.
    + by rewrite state_notify.
  - intros li t Hi Ht. rewrite Hi in Ht.
    destruct (cloneDeep_ref _ _ _ Ht) as (l' & Hc & Hle).
    exists l'. unfold reset. rewrite Hi.
    destruct (cloneDeep (mem s) (Ref li)) as [h' st] eqn:Hcd. simpl in Hc.
    rewrite state_notify. simpl. split; [done|]. split; [|done].
    apply lookup_lt_Some in Hl. lia.
Qed.

Lemma set_keeps_state_reference_witness :
  getTree cart = Ref 2
  /\ mem cart !! 2 = Some [("open", Prim (PBool false)); ("total", Prim (PNum 0))]
  /\ (forall fork,
        getTree (set fork cart) = Ref 2
        /\ forall k, k ∈ keys (source_props (mem cart) fork) ->
             read (mem (set fork cart)) (Ref 2) k = read (mem cart) fork k)
  /\ (forall a, a <> CallReset -> getTree (final (run_action a cart)) = Ref 2)
  /\ (forall li t,
        initial cart = Ref li -> tree_of (mem cart) (initial cart) = Some t ->
        exists l', getTree (reset cart) = Ref l' /\ l' <> 2
                   /\ length (mem cart) <= l').
Proof.
  split; [reflexivity|]. split; [reflexivity|].
  apply (set_keeps_state_reference cart 2
           [("open", Prim (PBool false)); ("total", Prim (PNum 0))]);
    reflexivity.
Defined.

(** C7 (as amended).  [reset()] deep-copies the caller's [initial] object
    as it is when [reset] runs: afterwards [getTree()] denotes the same
    tree as [initial], every object of it has been allocated by this call,
    so it shares no object with [initial] or with anything a state held
    before, and no object that existed before is modified. *)
Theorem reset_copies_initial_afresh (s : store) (t : ltree) :
  tree_of (mem s) (initial s) = Some t ->
  exists t',
    tree_of (mem (reset s)) (getTree (reset s)) = Some t'
    /\ erase t' = erase t
    /\ Forall (fun l => length (mem s) <= l) (locs t')
    /\ (forall l, l < length (mem s) -> mem (reset s) !! l = mem s !! l).
Proof.
  intros Ht. destruct (cloneDeep_spec _ _ _ Ht) as (e & v' & t' & Hc & Hw & He & Hf).
  exists t'. unfold reset, getTree. rewrite Hc, mem_notify, state_notify. simpl.
  repeat split; try done. intros l Hl. by apply lookup_app_l.
Qed.

Lemma reset_copies_initial_afresh_witness :
  tree_of (mem cart) (initial cart)
  = Some (LNode 0 [("open", LLeaf (PBool false)); ("total", LLeaf (PNum 0))])
  /\ exists t',
       tree_of (mem (reset cart)) (getTree (reset cart)) = Some t'
       /\ erase t'
          = erase (LNode 0 [("open", LLeaf (PBool false)); ("total", LLeaf (PNum 0))])
       /\ Forall (fun l => length (mem cart) <= l) (locs t')
       /\ (forall l, l < length (mem cart) ->
             mem (reset cart) !! l = mem cart !! l).
Proof.
  split; [reflexivity|].
  apply (reset_copies_initial_afresh cart); reflexivity.
Defined.

(** C7, counterexample.  After [initial.summary.total = 5] the tree that
    [reset()] installs has [total] 5: it is not deep-equal to the value the
    store was constructed from. *)
Lemma reset_after_initial_mutated :
  erase <$> tree_of (mem summary_store_reset) (getTree summary_store_reset)
  = Some (JNode [("summary", JNode [("total", JLeaf (PNum 5))])])
  /\ erase <$> tree_of summary_heap (Ref 1)
     = Some (JNode [("summary", JNode [("total", JLeaf (PNum 0))])])
  /\ ~ deep_equal (mem summary_store_reset) (getTree summary_store_reset)
         summary_heap (Ref 1).
Proof.
  split; [reflexivity|]. split; [reflexivity|].
  intros (t1 & t2 & H1 & H2 & He).
  vm_compute in H1, H2. injection H1 as <-. injection H2 as <-.
  discriminate He.
Qed.

(** C5 (as amended).  [Store(initial)] deep-copies [initial] into the
    state and keeps [initial] itself, by reference, as the source of later
    resets.  Whatever the caller then does to objects that existed before
    the construction, the tree behind [getTree()] stays what it was; a
    [reset()] after such mutations installs a deep copy of [initial] as the
    mutations left it. *)
Theorem Store_copies_state_keeps_initial (h : heap) (init : value) (t : ltree) :
  tree_of h init = Some t ->
  initial (Store h init) = init
  /\ (exists ts,
        tree_of (mem (Store h init)) (getTree (Store h init)) = Some ts
        /\ erase ts = erase t
        /\ Forall (fun l => length h <= l) (locs ts))
  /\ forall m,
       length m = length (mem (Store h init)) ->
       (forall l, length h <= l -> m !! l = mem (Store h init) !! l) ->
       tree_of m (getTree (Store h init))
       = tree_of (mem (Store h init)) (getTree (Store h init))
       /\ forall t',
            tree_of m init = Some t' ->
            exists tr,
              tree_of (mem (reset (with_mem m (Store h init))))
                      (getTree (reset (with_mem m (Store h init)))) = Some tr
              /\ erase tr = erase t'.
Proof.
  intros Ht. destruct (cloneDeep_spec _ _ _ Ht) as (e & v' & ts & Hc & Hw & He & Hf).
  unfold Store, getTree. rewrite Hc. simpl.
  split; [done|]. split; [by exists ts|].
  intros m Hlen Hag. split.
  - rewrite Hw. unfold tree_of in *. rewrite Hlen.
    eapply walk_agree; [exact Hw|]. intros l Hl. apply Hag.
    rewrite Forall_forall in Hf. by apply Hf.
  - intros t' Ht'.
    destruct (cloneDeep_spec _ _ _ Ht') as (e' & v2 & tr & Hc' & Hw' & He' & _).
    exists tr. unfold reset. simpl. rewrite Hc', mem_notify, state_notify.
    by simpl.
Qed.

Lemma Store_copies_state_keeps_initial_witness :
  tree_of cart_heap (Ref 0)
  = Some (LNode 0 [("open", LLeaf (PBool false)); ("total", LLeaf (PNum 0))])
  /\ initial (Store cart_heap (Ref 0)) = Ref 0
  /\ (exists ts,
        tree_of (mem (Store cart_heap (Ref 0))) (getTree (Store cart_heap (Ref 0)))
        = Some ts
        /\ erase ts
           = erase (LNode 0 [("open", LLeaf (PBool false)); ("total", LLeaf (PNum 0))])
        /\ Forall (fun l => length cart_heap <= l) (locs ts))
  /\ forall m,
       length m = length (mem (Store cart_heap (Ref 0))) ->
       (forall l, length cart_heap <= l ->
          m !! l = mem (Store cart_heap (Ref 0)) !! l) ->
       tree_of m (getTree (Store cart_heap (Ref 0)))
       = tree_of (mem (Store cart_heap (Ref 0))) (getTree (Store cart_heap (Ref 0)))
       /\ forall t',
            tree_of m (Ref 0) = Some t' ->
            exists tr,
              tree_of (mem (reset (with_mem m (Store cart_heap (Ref 0)))))
                      (getTree (reset (with_mem m (Store cart_heap (Ref 0)))))
              = Some tr
              /\ erase tr = erase t'.
Proof.
  split; [reflexivity|].
  apply (Store_copies_state_keeps_initial cart_heap (Ref 0)); reflexivity.
Defined.

(** C5, counterexample.  After [initial.total = 7], [getTree()] still
    shows [total] 0, but the tree [reset()] restores has [total] 7, where a
    [reset()] without the mutation restores 0. *)
Lemma reset_sees_mutation_of_initial :
  erase <$> tree_of (mem (with_mem (write 0 "total" (Prim (PNum 7)) (mem cart)) cart))
                    (getTree cart)
  = Some (JNode [("open", JLeaf (PBool false)); ("total", JLeaf (PNum 0))])
  /\ erase <$> tree_of (mem cart_reset_after_write) (getTree cart_reset_after_write)
     = Some (JNode [("open", JLeaf (PBool false)); ("total", JLeaf (PNum 7))])
  /\ erase <$> tree_of (mem (reset cart)) (getTree (reset cart))
     = Some (JNode [("open", JLeaf (PBool false)); ("total", JLeaf (PNum 0))]).
Proof. by_computation. Qed.

(** ** The subscription registry *)

Section registry.
Implicit Types (s : store) (f g : lid) (ls : list lid).

Lemma elem_of_set_add g f ls : g ∈ set_add f ls <-> g = f \/ g ∈ ls.
Proof.
  unfold set_add. destruct (decide (f ∈ ls)) as [Hin|Hnin].
  - split; [by right | by intros [->|?]].
  - rewrite elem_of_app, list_elem_of_singleton. tauto.
Qed.

Lemma elem_of_set_delete g f ls : g ∈ set_delete f ls <-> g <> f /\ g ∈ ls.
Proof. unfold set_delete. by rewrite list_elem_of_filter. Qed.

Lemma set_add_idem f ls : set_add f (set_add f ls) = set_add f ls.
Proof.
  unfold set_add at 1. rewrite decide_True; [done|].
  apply elem_of_set_add. by left.
Qed.

Lemma set_delete_idem f ls : set_delete f (set_delete f ls) = set_delete f ls.
Proof.
  unfold set_delete. induction ls as [|g ls IH]; [done|].
  rewrite (filter_cons _ g ls). destruct (decide (g <> f)) as [Hne|Heq].
  - rewrite filter_cons, decide_True by done. by rewrite IH.
  - exact IH.
Qed.

Lemma unsubscribe_idem f s : unsubscribe f (unsubscribe f s) = unsubscribe f s.
Proof. unfold unsubscribe, with_listeners. simpl. by rewrite set_delete_idem. Qed.

(** A [Set] holds a function at most once. *)
Lemma set_add_NoDup f ls : NoDup ls -> NoDup (set_add f ls).
Proof.
  intros Hnd. unfold set_add. destruct (decide (f ∈ ls)); [done|].
  apply NoDup_app. repeat split; [done| |apply NoDup_singleton].
  intros g Hg ->%list_elem_of_singleton. done.
Qed.

Lemma set_delete_NoDup f ls : NoDup ls -> NoDup (set_delete f ls).
Proof. apply NoDup_filter. Qed.
End registry.

(** ** Executions as sequences of steps *)

Section steps.
Implicit Types (s : store) (f g : lid) (a : action) (script : list action).

(** Action code leaves the closures and the trace alone and can only
    shrink the registry. *)
Lemma run_action_frame a s :
  closures (final (run_action a s)) = closures s
  /\ trace (final (run_action a s)) = trace s
  /\ (forall g, g ∈ listeners (final (run_action a s)) -> g ∈ listeners s).
Proof.
  destruct a; simpl; try done.
  - destruct (notify_fields s) as (_ & _ & _ & -> & -> & ->). done.
  - unfold set. destruct (assign (mem s) (state s) fork) as [h' st].
    destruct (notify_fields (with_state st (with_mem h' s)))
      as (_ & _ & _ & -> & -> & ->). done.
  - unfold reset. destruct (cloneDeep (mem s) (initial s)) as [h' st].
    destruct (notify_fields (with_state st (with_mem h' s)))
      as (_ & _ & _ & -> & -> & ->). done.
  - repeat split. intros g. rewrite elem_of_set_delete. tauto.
Qed.

Lemma run_action_listeners a s :
  listeners (final (run_action a s))
  = match a with
    | Cleanup f => set_delete f (listeners s)
    | _ => listeners s
    end.
Proof.
  destruct a; simpl; try done.
  - by destruct (notify_fields s) as (_ & _ & _ & -> & _).
  - unfold set. destruct (assign (mem s) (state s) fork) as [h' st].
    by destruct (notify_fields (with_state st (with_mem h' s)))
      as (_ & _ & _ & -> & _).
  - unfold reset. destruct (cloneDeep (mem s) (initial s)) as [h' st].
    by destruct (notify_fields (with_state st (with_mem h' s)))
      as (_ & _ & _ & -> & _).
Qed.

(** The registry of a store that an execution reaches holds no listener
    twice. *)
Lemma micro_NoDup s s' :
  micro s s' -> NoDup (listeners s) -> NoDup (listeners s').
Proof.
  intros Hstep Hnd.
  destruct Hstep as [s s' Hl|n s Ht|s|s|c s|path c s]; simpl; try done;
    try by apply set_add_NoDup.
  destruct Hl as [a s|g c s _ _|g path old c s _ _ _|g path old c s _ _ _];
    simpl; try done.
  rewrite run_action_listeners. destruct a; try done.
  by apply set_delete_NoDup.
Qed.

Lemma micro_steps_NoDup s s' :
  rtc micro s s' -> NoDup (listeners s) -> NoDup (listeners s').
Proof.
  induction 1 as [|s1 s2 s3 H12 _ IH]; [done|].
  intros Hnd. by apply IH, (micro_NoDup s1).
Qed.

Lemma run_script_steps script : forall s,
  rtc listener_step s (final (run_script script s)).
Proof.
  induction script as [|a script IH]; intros s; simpl; [done|].
  pose proof (step_action a s) as Ha.
  destruct (run_action a s) as [s'|s'] eqn:Hr; simpl in *.
  - eapply rtc_l; [exact Ha | apply IH].
  - by apply rtc_once.
Qed.

Lemma call_steps f s :
  f ∈ listeners s -> rtc listener_step s (final (call f s)).
Proof.
  intros Hin. unfold call.
  destruct (closures s !! f) as [[c|path old c]|] eqn:Hf; [| |done].
  - eapply rtc_l; [by eapply step_tree | apply run_script_steps].
  - simpl. destruct (strict_eq (get (mem s) (state s) path) old) eqn:Heq.
    + apply rtc_once. by eapply step_same.
    + eapply rtc_l; [by eapply step_changed | apply run_script_steps].
Qed.

Lemma forEach_steps todo : forall s,
  rtc listener_step s (final (forEach todo s)).
Proof.
  induction todo as [|f todo IH]; intros s; simpl; [done|].
  destruct (decide (f ∈ listeners s)) as [Hin|Hnin]; [|apply IH].
  pose proof (call_steps f s Hin) as Hc.
  destruct (call f s) as [s'|s']; simpl in *; [|done].
  etrans; [exact Hc | apply IH].
Qed.

Lemma rtc_listener_micro s s' : rtc listener_step s s' -> rtc micro s s'.
Proof.
  induction 1 as [|s1 s2 s3 H12 _ IH]; [done|].
  eapply rtc_l; [by apply micro_listener | exact IH].
Qed.

Lemma tick_steps s : rtc micro s (tick s).
Proof.
  unfold tick. destruct (timers s) as [|n] eqn:Ht; [done|].
  eapply rtc_l; [by apply (micro_flush_begin n)|].
  unfold flush. simpl.
  pose proof (forEach_steps (listeners s) (log Flush (with_timers n s))) as Hf.
  apply rtc_listener_micro in Hf.
  destruct (forEach (listeners s) (log Flush (with_timers n s))) as [s'|s'];
    simpl in *.
  - etrans; [exact Hf|]. apply rtc_once, micro_flush_end.
  - etrans; [exact Hf|]. apply rtc_once, micro_uncaught.
Qed.

Lemma step_steps s (c : command) : rtc micro s (step s c).
Proof.
  destruct c as [script|c|path c|]; simpl.
  - apply rtc_listener_micro, run_script_steps.
  - apply rtc_once, micro_mount_tree.
  - apply rtc_once, micro_mount_subtree.
  - apply tick_steps.
Qed.

Lemma run_steps cs : forall s, rtc micro s (run cs s).
Proof.
  unfold run. induction cs as [|c cs IH]; intros s; simpl; [done|].
  etrans; [apply step_steps | apply IH].
Qed.
End steps.

(** ** The batched notifier *)

Section notifier.
Implicit Types (s : store) (f g : lid) (a : action) (script : list action).

Lemma notify_queued s : queued s = true -> notify s = s.
Proof. unfold notify. by intros ->. Qed.

Lemma notify_sets_flag s : queued (notify s) = true.
Proof. unfold notify. by destruct (queued s) eqn:Hq. Qed.

(** While the flag is set no action clears it or adds a timer. *)
Lemma run_action_flag a s :
  queued s = true ->
  queued (final (run_action a s)) = true
  /\ timers (final (run_action a s)) = timers s.
Proof.
  intros Hq. destruct a; simpl; try done.
  - by rewrite notify_queued.
  - unfold set. destruct (assign (mem s) (state s) fork) as [h' st].
    by rewrite notify_queued.
  - unfold reset. destruct (cloneDeep (mem s) (initial s)) as [h' st].
    by rewrite notify_queued.
Qed.

Lemma listener_step_flag s s' :
  listener_step s s' ->
  queued s = true -> queued s' = true /\ timers s' = timers s.
Proof. destruct 1; intros Hq; simpl; try done. by apply run_action_flag. Qed.

Lemma listener_steps_flag s s' :
  rtc listener_step s s' ->
  queued s = true -> queued s' = true /\ timers s' = timers s.
Proof.
  induction 1 as [|s1 s2 s3 H12 _ IH]; intros Hq; [done|].
  destruct (listener_step_flag _ _ H12 Hq) as [Hq2 Ht2].
  destruct (IH Hq2) as [Hq3 Ht3]. split; [done | congruence].
Qed.

Lemma run_script_trace script : forall s,
  trace (final (run_script script s)) = trace s.
Proof.
  induction script as [|a script IH]; intros s; simpl; [done|].
  destruct (run_action_frame a s) as (_ & Ht & _).
  destruct (run_action a s) as [s'|s']; simpl in *; [|done].
  by rewrite IH.
Qed.

Lemma calls_of_app tr1 tr2 : calls_of (tr1 ++ tr2) = calls_of tr1 ++ calls_of tr2.
Proof.
  induction tr1 as [|e tr1 IH]; [done|]. destruct e; simpl; by rewrite ?IH.
Qed.

Lemma flushes_app tr1 tr2 : flushes (tr1 ++ tr2) = flushes tr1 + flushes tr2.
Proof.
  induction tr1 as [|e tr1 IH]; [done|]. destruct e; simpl; by rewrite ?IH.
Qed.

(** What a call of the listener [f] appends to the trace. *)
Lemma call_trace f s :
  exists tr, trace (final (call f s)) = trace s ++ tr
             /\ (forall g, g ∈ calls_of tr -> g = f)
             /\ flushes tr = 0.
Proof.
  unfold call. destruct (closures s !! f) as [[c|path old c]|] eqn:Hf.
  - exists [Called f; Forced (cid c)]. unfold forceUpdate.
    rewrite run_script_trace. simpl. rewrite <- app_assoc. simpl.
    repeat split. by intros g ->%list_elem_of_singleton.
  - simpl. destruct (strict_eq (get (mem s) (state s) path) old).
    + exists [Called f; Observed f (get (mem s) (state s) path)]. simpl.
      rewrite <- app_assoc. simpl.
      repeat split. by intros g ->%list_elem_of_singleton.
    + exists [Called f; Observed f (get (mem s) (state s) path); Forced (cid c)].
      unfold forceUpdate. rewrite run_script_trace. simpl.
      rewrite <- !app_assoc. simpl.
      repeat split. by intros g ->%list_elem_of_singleton.
  - exists []. simpl. rewrite app_nil_r. repeat split. by intros g ?%elem_of_nil.
Qed.

(** [forEach] calls listeners of its list only, and starts no flush. *)
Lemma forEach_trace todo : forall s,
  exists tr, trace (final (forEach todo s)) = trace s ++ tr
             /\ (forall g, g ∈ calls_of tr -> g ∈ todo)
             /\ flushes tr = 0.
Proof.
  induction todo as [|f todo IH]; intros s; simpl.
  { exists []. rewrite app_nil_r. repeat split. by intros g ?%elem_of_nil. }
  destruct (decide (f ∈ listeners s)) as [Hin|Hnin].
  - destruct (call_trace f s) as (tr1 & Ht1 & Hc1 & Hf1).
    destruct (call f s) as [s'|s']; simpl in *.
    + destruct (IH s') as (tr2 & Ht2 & Hc2 & Hf2).
      exists (tr1 ++ tr2). rewrite Ht2, Ht1, app_assoc.
      rewrite calls_of_app, flushes_app. repeat split; [|lia].
      intros g [Hg|Hg]%elem_of_app.
      * rewrite (Hc1 g Hg). apply list_elem_of_here.
      * apply list_elem_of_further. by apply Hc2.
    + exists tr1. repeat split; [done| |done].
      intros g Hg. rewrite (Hc1 g Hg). apply list_elem_of_here.
  - destruct (IH s) as (tr & Ht & Hc & Hf).
    exists tr. repeat split; [done| |done].
    intros g Hg. apply list_elem_of_further. by apply Hc.
Qed.

Lemma forEach_app l1 l2 s :
  forEach (l1 ++ l2) s =
  match forEach l1 s with
  | Returned s' => forEach l2 s'
  | Threw s' => Threw s'
  end.
Proof.
  revert s. induction l1 as [|f l1 IH]; intros s; simpl; [done|].
  destruct (decide (f ∈ listeners s)); [|apply IH].
  destruct (call f s) as [s'|s']; [apply IH | done].
Qed.

Lemma notify_tracks s :
  flag_tracks_timer s ->
  flag_tracks_timer (notify s) /\ queued (notify s) = true.
Proof.
  unfold flag_tracks_timer, notify.
  intros [[Hq Ht]|[Hq Ht]]; rewrite Hq; simpl; rewrite ?Ht; auto.
Qed.

Lemma run_action_tracks a s :
  flag_tracks_timer s ->
  flag_tracks_timer (final (run_action a s))
  /\ (requests_flush a = true -> queued (final (run_action a s)) = true).
Proof.
  intros Hs. destruct a; simpl; try done.
  - destruct (notify_tracks s Hs). done.
  - unfold set. destruct (assign (mem s) (state s) fork) as [h' st].
    destruct (notify_tracks (with_state st (with_mem h' s)) Hs). done.
  - unfold reset. destruct (cloneDeep (mem s) (initial s)) as [h' st].
    destruct (notify_tracks (with_state st (with_mem h' s)) Hs). done.
Qed.

Lemma run_script_tracks script : forall s,
  flag_tracks_timer s ->
  flag_tracks_timer (final (run_script script s))
  /\ (flush_requested script = true \/ queued s = true ->
      queued (final (run_script script s)) = true).
Proof.
  induction script as [|a script IH]; intros s Hs; simpl.
  { split; [done|]. by intros [?|?]. }
  destruct (run_action_tracks a s Hs) as [Hs' Hreq].
  pose proof (run_action_flag a s) as Hkeep.
  destruct a; simpl in *;
    try (destruct (IH _ Hs') as [Hfin Hq]; split; [done|];
         intros [Hfr|Hqs]; apply Hq; auto; right; by apply Hkeep).
  split; [done|]. by intros [?|?].
Qed.
End notifier.

Lemma flush_flag (s : store) :
  queued s = true ->
  match flush s with
  | Returned s' => queued s' = false /\ timers s' = timers s
  | Threw s' => queued s' = true /\ timers s' = timers s
  end.
Proof.
  intros Hq. unfold flush.
  pose proof (listener_steps_flag _ _
                (forEach_steps (listeners s) (log Flush s)) Hq) as [Hq' Ht'].
  destruct (forEach (listeners s) (log Flush s)) as [s'|s']; simpl in *; done.
Qed.

(** C1 (as amended).  The flush callback runs the listeners first and
    clears the flag last.  From the start of the loop to its end, whatever
    the listeners and React's reactions do, the flag stays set, no timer is
    added, and a call of [notify()] changes nothing; the flag is cleared
    once the loop has returned, and stays set when a listener threw. *)
Theorem flush_clears_flag_after_listeners (s : store) :
  queued s = true ->
  (forall s', rtc listener_step (log Flush s) s' ->
     queued s' = true /\ timers s' = timers s /\ notify s' = s')
  /\ rtc listener_step (log Flush s)
        (final (forEach (listeners s) (log Flush s)))
  /\ match flush s with
     | Returned s' => queued s' = false /\ timers s' = timers s
     | Threw s' => queued s' = true /\ timers s' = timers s
     end.
Proof.
  intros Hq.
  assert (forall s', rtc listener_step (log Flush s) s' ->
            queued s' = true /\ timers s' = timers s) as Hall.
  { intros s' Hs'. by apply (listener_steps_flag _ _ Hs'). }
  split; [|split].
  - intros s' Hs'. destruct (Hall s' Hs') as [Hq' Ht'].
    repeat split; try done. by apply notify_queued.
  - apply forEach_steps.
  - by apply flush_flag.
Qed.

Lemma flush_clears_flag_after_listeners_witness :
  queued cart_thrower = true
  /\ (forall s', rtc listener_step (log Flush cart_thrower) s' ->
        queued s' = true /\ timers s' = timers cart_thrower /\ notify s' = s')
  /\ rtc listener_step (log Flush cart_thrower)
        (final (forEach (listeners cart_thrower) (log Flush cart_thrower)))
  /\ match flush cart_thrower with
     | Returned s' => queued s' = false /\ timers s' = timers cart_thrower
     | Threw s' => queued s' = true /\ timers s' = timers cart_thrower
     end.
Proof.
  split; [reflexivity|].
  apply (flush_clears_flag_after_listeners cart_thrower); reflexivity.
Defined.

(** C1, counterexample.  During the flush the second listener's component
    writes [total = 5] and calls [notify()].  The [useSubtree("total")]
    listener had already run and seen 0; after the flush the flag is clear
    and no timer is waiting, so no flush will show it the 5. *)
Lemma notify_during_flush_swallowed :
  trace cart_reentrant
  = [Flush; Called 0; Observed 0 (Prim (PNum 0)); Called 1; Forced 2]
  /\ get (mem cart_reentrant) (state cart_reentrant) "total" = Prim (PNum 5)
  /\ queued cart_reentrant = false
  /\ timers cart_reentrant = 0
  /\ trace (run [Yield; Yield] cart_reentrant) = trace cart_reentrant.
Proof. by_computation. Qed.

(** C2 (as amended).  Nothing catches an exception inside the flush
    callback.  When the listeners before [f] have returned and [f] throws,
    the exception ends the flush in the store the throw left: the trace
    since the start of the flush shows no call of a listener that comes
    after [f] in the registry, and the flag, which the callback clears in
    its last statement, is still set after the host has reported the
    exception. *)
Theorem throwing_listener_aborts_flush (s : store) (before after : list lid)
    (f : lid) (s1 s2 : store) :
  queued s = true ->
  NoDup (listeners s) ->
  listeners s = before ++ f :: after ->
  forEach before (log Flush s) = Returned s1 ->
  f ∈ listeners s1 ->
  call f s1 = Threw s2 ->
  flush s = Threw s2
  /\ (exists tr, trace s2 = trace s ++ Flush :: tr
                 /\ forall g, g ∈ after -> g ∉ calls_of tr)
  /\ queued (report (flush s)) = true.
Proof.
  intros Hq Hnd Hls Hbefore Hin Hcall.
  assert (flush s = Threw s2) as Hflush.
  { unfold flush. rewrite Hls, forEach_app, Hbefore. simpl.
    rewrite decide_True by done. by rewrite Hcall. }
  split; [done|]. split.
  - destruct (forEach_trace before (log Flush s)) as (tr1 & Ht1 & Hc1 & _).
    destruct (call_trace f s1) as (tr2 & Ht2 & Hc2 & _).
    rewrite Hbefore in Ht1. rewrite Hcall in Ht2. simpl in *.
    exists (tr1 ++ tr2). rewrite Ht2, Ht1, <- !app_assoc. split; [done|].
    rewrite Hls in Hnd. apply NoDup_app in Hnd as (_ & Hdisj & Hnd).
    apply NoDup_cons in Hnd as [Hf _].
    intros g Hg. rewrite calls_of_app, elem_of_app. intros [Hc|Hc].
    + apply (Hdisj g (Hc1 g Hc)). by apply list_elem_of_further.
    + rewrite (Hc2 g Hc) in Hg. done.
  - pose proof (flush_flag s Hq) as Hend.
    rewrite Hflush in *. simpl. tauto.
Qed.

Lemma throwing_listener_aborts_flush_witness :
  queued cart_thrower = true
  /\ NoDup (listeners cart_thrower)
  /\ listeners cart_thrower = [] ++ 0 :: [1]
  /\ forEach [] (log Flush cart_thrower) = Returned (log Flush cart_thrower)
  /\ 0 ∈ listeners (log Flush cart_thrower)
  /\ call 0 (log Flush cart_thrower)
     = Threw (log (Forced 1) (log (Called 0) (log Flush cart_thrower)))
  /\ flush cart_thrower
     = Threw (log (Forced 1) (log (Called 0) (log Flush cart_thrower)))
  /\ (exists tr,
        trace (log (Forced 1) (log (Called 0) (log Flush cart_thrower)))
        = trace cart_thrower ++ Flush :: tr
        /\ forall g, g ∈ [1] -> g ∉ calls_of tr)
  /\ queued (report (flush cart_thrower)) = true.
Proof.
  assert (0 ∈ listeners (log Flush cart_thrower)) as Hin.
  { simpl. apply list_elem_of_here. }
  assert (NoDup (listeners cart_thrower)) as Hnd.
  { simpl. apply NoDup_cons. split; [|apply NoDup_singleton].
    intros H%list_elem_of_singleton. discriminate H. }
  split; [reflexivity|]. split; [exact Hnd|]. split; [reflexivity|].
  split; [reflexivity|]. split; [exact Hin|]. split; [reflexivity|].
  apply (throwing_listener_aborts_flush cart_thrower [] [1] 0
           (log Flush cart_thrower)
           (log (Forced 1) (log (Called 0) (log Flush cart_thrower))));
    [reflexivity | exact Hnd | reflexivity | reflexivity | exact Hin
    | reflexivity].
Defined.

(** C2, counterexample.  Two listeners are registered and the first one's
    component throws.  The flush calls the first listener only, the flag
    is still set afterwards with no timer waiting, and a later [notify()]
    followed by a turn of the event loop calls nobody. *)
Lemma throw_skips_listeners_and_sticks_flag :
  listeners cart_thrower = [0; 1]
  /\ trace (tick cart_thrower) = [Flush; Called 0; Forced 1; Uncaught]
  /\ queued (tick cart_thrower) = true
  /\ timers (tick cart_thrower) = 0
  /\ trace (run [Run [CallNotify]; Yield] (tick cart_thrower))
     = trace (tick cart_thrower).
Proof. by_computation. Qed.

(** The flag goes on tracking the timer queue from one turn of the event
    loop to the next, except when an exception leaves a flush. *)
Lemma flag_tracks_timer_Store (h : heap) (init : value) :
  flag_tracks_timer (Store h init).
Proof. unfold Store. destruct (cloneDeep h init). by left. Qed.

Lemma flag_tracks_timer_step (s : store) (c : command) :
  flag_tracks_timer s ->
  flag_tracks_timer (step s c)
  \/ (c = Yield /\ timers s = 1
      /\ exists s', flush (with_timers 0 s) = Threw s').
Proof.
  intros Hs. destruct c as [script|c|path c|]; simpl.
  - left. by apply run_script_tracks.
  - by left.
  - by left.
  - unfold tick. destruct Hs as [[Hq Ht]|[Hq Ht]]; rewrite Ht; [left; by left|].
    pose proof (flush_flag (with_timers 0 s) Hq) as Hend.
    destruct (flush (with_timers 0 s)) as [s'|s'] eqn:Hf; simpl in *.
    + left. left. done.
    + right. eauto.
Qed.

Lemma micro_steps_trace (s s' : store) :
  rtc micro s s' -> exists tr, trace s' = trace s ++ tr.
Proof.
  induction 1 as [s|s1 s2 s3 H12 _ [tr2 Ht2]].
  { exists []. by rewrite app_nil_r. }
  assert (exists tr1, trace s2 = trace s1 ++ tr1) as [tr1 Ht1].
  { destruct H12 as [s s' Hl|n s Ht|s|s|c s|path c s]; simpl;
      try (by exists []; rewrite app_nil_r); try by eexists [_].
    destruct Hl as [a s|g c s _ _|g path old c s _ _ _|g path old c s _ _ _];
      simpl.
    - destruct (run_action_frame a s) as (_ & -> & _).
      exists []. by rewrite app_nil_r.
    - eexists [_; _]. by rewrite <- app_assoc.
    - eexists [_; _]. by rewrite <- app_assoc.
    - eexists [_; _; _]. by rewrite <- !app_assoc. }
  exists (tr1 ++ tr2). by rewrite Ht2, Ht1, app_assoc.
Qed.

(** In an execution during which the host reported no exception, the flag
    tracks the timer queue at every turn of the event loop. *)
Lemma flag_tracks_timer_run (cs : list command) : forall s,
  flag_tracks_timer s ->
  flag_tracks_timer (run cs s) \/ Uncaught ∈ trace (run cs s).
Proof.
  induction cs as [|c cs IH]; intros s Hs; [by left|].
  change (run (c :: cs) s) with (run cs (step s c)).
  destruct (flag_tracks_timer_step s c Hs) as [Hs'|(-> & Ht & s' & Hf)].
  { by apply IH. }
  right. destruct (micro_steps_trace _ _ (run_steps cs (step s Yield)))
    as [tr ->].
  apply elem_of_app. left. simpl. unfold tick. rewrite Ht, Hf. simpl.
  apply elem_of_app. right. apply list_elem_of_here.
Qed.

(** ** Unsubscription *)

Section unsubscription.
Implicit Types (s : store) (f g : lid).

Lemma listener_step_gone f s s' :
  listener_step s s' ->
  gone f s ->
  gone f s' /\ exists tr, trace s' = trace s ++ tr /\ f ∉ calls_of tr.
Proof.
  unfold gone. intros Hstep [Hnin Hlt].
  assert (forall g, g ∈ listeners s -> g <> f) as Hne by (intros g ? ->; done).
  destruct Hstep as [a s|g c s Hg Hc|g path old c s Hg Hc Heq
                    |g path old c s Hg Hc Heq]; simpl.
  - destruct (run_action_frame a s) as (Hcl & Htr & Hls).
    rewrite Hcl, Htr. split; [split; [|done]|].
    + intros Hin. by apply Hnin, Hls.
    + exists []. rewrite app_nil_r. split; [done | apply not_elem_of_nil].
  - split; [done|]. exists [Called g; Forced (cid c)].
    rewrite <- app_assoc. split; [done|]. simpl.
    rewrite list_elem_of_singleton. intros ->. by apply (Hne g).
  - split; [done|]. exists [Called g; Observed g (get (mem s) (state s) path)].
    rewrite <- app_assoc. split; [done|]. simpl.
    rewrite list_elem_of_singleton. intros ->. by apply (Hne g).
  - rewrite length_insert. split; [done|].
    exists [Called g; Observed g (get (mem s) (state s) path); Forced (cid c)].
    rewrite <- !app_assoc. split; [done|]. simpl.
    rewrite list_elem_of_singleton. intros ->. by apply (Hne g).
Qed.

Lemma micro_gone f s s' :
  micro s s' ->
  gone f s ->
  gone f s' /\ exists tr, trace s' = trace s ++ tr /\ f ∉ calls_of tr.
Proof.
  intros Hstep Hgone.
  destruct Hstep as [s s' Hl|n s Ht|s|s|c s|path c s].
  - by apply listener_step_gone.
  - split; [done|]. exists [Flush]. split; [done | apply not_elem_of_nil].
  - split; [done|]. exists []. simpl. rewrite app_nil_r.
    split; [done | apply not_elem_of_nil].
  - split; [done|]. exists [Uncaught]. split; [done | apply not_elem_of_nil].
  - destruct Hgone as [Hnin Hlt]. unfold gone. simpl. rewrite length_app.
    split; [split; [|lia]|].
    + rewrite elem_of_set_add. intros [->|?]; [lia | done].
    + exists []. rewrite app_nil_r. split; [done | apply not_elem_of_nil].
  - destruct Hgone as [Hnin Hlt]. unfold gone. simpl. rewrite length_app.
    split; [split; [|lia]|].
    + rewrite elem_of_set_add. intros [->|?]; [lia | done].
    + exists []. rewrite app_nil_r. split; [done | apply not_elem_of_nil].
Qed.

Lemma micro_steps_gone f s s' :
  rtc micro s s' ->
  gone f s ->
  gone f s' /\ exists tr, trace s' = trace s ++ tr /\ f ∉ calls_of tr.
Proof.
  induction 1 as [s|s1 s2 s3 H12 _ IH]; intros Hgone.
  - split; [done|]. exists []. rewrite app_nil_r.
    split; [done | apply not_elem_of_nil].
  - destruct (micro_gone f _ _ H12 Hgone) as (Hg2 & tr1 & Ht1 & Hc1).
    destruct (IH Hg2) as (Hg3 & tr2 & Ht2 & Hc2).
    split; [done|]. exists (tr1 ++ tr2). rewrite Ht2, Ht1, app_assoc.
    split; [done|]. rewrite calls_of_app, elem_of_app. tauto.
Qed.

Lemma unsubscribe_gone f s :
  f < length (closures s) -> gone f (unsubscribe f s).
Proof.
  intros Hlt. split; [|done]. simpl. rewrite elem_of_set_delete. tauto.
Qed.
End unsubscription.

(** C8.  [f] is a listener that a hook created.  Once the function that
    [subscribe] returned for it has been called, no store that any
    sequence of steps leads to shows a call of [f]: not the rest of a
    flush that is running, not the flush that was already waiting in the
    timer queue, not any later one.  Calling the function again changes
    nothing. *)
Theorem unsubscribed_listener_never_called (s : store) (f : lid) :
  f < length (closures s) ->
  (forall s', rtc micro (unsubscribe f s) s' ->
     exists tr, trace s' = trace s ++ tr /\ f ∉ calls_of tr)
  /\ (forall cs, exists tr,
        trace (run cs (unsubscribe f s)) = trace s ++ tr /\ f ∉ calls_of tr)
  /\ (forall todo, exists tr,
        trace (final (forEach todo (unsubscribe f s))) = trace s ++ tr
        /\ f ∉ calls_of tr)
  /\ unsubscribe f (unsubscribe f s) = unsubscribe f s.
Proof.
  intros Hlt.
  assert (forall s', rtc micro (unsubscribe f s) s' ->
            exists tr, trace s' = trace s ++ tr /\ f ∉ calls_of tr) as Hall.
  { intros s' Hs'.
    by destruct (micro_steps_gone f _ _ Hs' (unsubscribe_gone f s Hlt)). }
  split; [exact Hall|]. split; [|split].
  - intros cs. apply Hall, run_steps.
  - intros todo. apply Hall, rtc_listener_micro, forEach_steps.
  - apply unsubscribe_idem.
Qed.

Lemma unsubscribed_listener_never_called_witness :
  1 < length (closures cart_thrower)
  /\ (forall s', rtc micro (unsubscribe 1 cart_thrower) s' ->
        exists tr, trace s' = trace cart_thrower ++ tr /\ 1 ∉ calls_of tr)
  /\ (forall cs, exists tr,
        trace (run cs (unsubscribe 1 cart_thrower)) = trace cart_thrower ++ tr
        /\ 1 ∉ calls_of tr)
  /\ (forall todo, exists tr,
        trace (final (forEach todo (unsubscribe 1 cart_thrower)))
        = trace cart_thrower ++ tr
        /\ 1 ∉ calls_of tr)
  /\ unsubscribe 1 (unsubscribe 1 cart_thrower) = unsubscribe 1 cart_thrower.
Proof.
  assert (1 < length (closures cart_thrower)) as Hlt by (simpl; lia).
  split; [exact Hlt|].
  apply (unsubscribed_listener_never_called cart_thrower 1 Hlt).
Defined.

(** ** Every listener is called *)

Section coverage.
Implicit Types (s : store) (f g : lid).

(** Listener calls and action code add no listener and no closure. *)
Lemma listener_step_shrink s s' :
  listener_step s s' ->
  (forall g, g ∈ listeners s' -> g ∈ listeners s)
  /\ length (closures s') = length (closures s).
Proof.
  destruct 1 as [a s|g c s _ _|g path old c s _ _ _|g path old c s _ _ _];
    simpl; try done.
  - destruct (run_action_frame a s) as (-> & _ & Hls). done.
  - by rewrite length_insert.
Qed.

Lemma listener_steps_shrink s s' :
  rtc listener_step s s' ->
  (forall g, g ∈ listeners s' -> g ∈ listeners s)
  /\ length (closures s') = length (closures s).
Proof.
  induction 1 as [|s1 s2 s3 H12 _ [IHl IHc]]; [done|].
  destruct (listener_step_shrink _ _ H12) as [Hl Hc].
  split; [auto | congruence].
Qed.

Lemma call_logs f s :
  f < length (closures s) ->
  exists tr, trace (final (call f s)) = trace s ++ Called f :: tr.
Proof.
  intros Hlt. unfold call.
  destruct (closures s !! f) as [[c|path old c]|] eqn:Hf.
  - exists [Forced (cid c)]. unfold forceUpdate.
    rewrite run_script_trace. simpl. by rewrite <- app_assoc.
  - simpl. destruct (strict_eq (get (mem s) (state s) path) old).
    + eexists [_]. simpl. by rewrite <- app_assoc.
    + eexists [_; _]. unfold forceUpdate. rewrite run_script_trace. simpl.
      by rewrite <- !app_assoc.
  - apply lookup_ge_None in Hf. lia.
Qed.

(** A loop that returns has called every listener of its list that is
    still registered when it returns. *)
Lemma forEach_calls_registered f todo : forall s s',
  f ∈ todo ->
  f < length (closures s) ->
  forEach todo s = Returned s' ->
  f ∈ listeners s' ->
  exists tr, trace s' = trace s ++ tr /\ f ∈ calls_of tr.
Proof.
  induction todo as [|g todo IH]; intros s s' Hin Hlt Hret Hreg.
  { by apply elem_of_nil in Hin. }
  simpl in Hret. destruct (decide (g ∈ listeners s)) as [Hg|Hg].
  - pose proof (call_steps g s Hg) as Hsteps.
    destruct (call g s) as [s1|s1] eqn:Hcall; [|done]. simpl in Hsteps.
    destruct (listener_steps_shrink _ _ Hsteps) as [_ Hlen].
    destruct (decide (g = f)) as [->|Hne].
    + destruct (call_logs f s Hlt) as [tr1 Ht1]. rewrite Hcall in Ht1.
      destruct (forEach_trace todo s1) as (tr2 & Ht2 & _).
      rewrite Hret in Ht2. simpl in *.
      exists ((Called f :: tr1) ++ tr2). rewrite Ht2, Ht1, <- app_assoc.
      split; [done|]. simpl. apply list_elem_of_here.
    + apply elem_of_cons in Hin as [->|Hin]; [done|].
      destruct (IH s1 s' Hin) as (tr2 & Ht2 & Hc2); [lia|done|done|].
      destruct (call_trace g s) as (tr1 & Ht1 & _). rewrite Hcall in Ht1.
      simpl in Ht1. exists (tr1 ++ tr2). rewrite Ht2, Ht1, app_assoc.
      split; [done|]. rewrite calls_of_app, elem_of_app. by right.
  - destruct (decide (g = f)) as [->|Hne].
    + pose proof (forEach_steps todo s) as Hsteps. rewrite Hret in Hsteps.
      destruct (listener_steps_shrink _ _ Hsteps) as [Hls _].
      by apply Hls in Hreg.
    + apply elem_of_cons in Hin as [->|Hin]; [done|]. by apply (IH s s').
Qed.

(** It has called such a listener in a store that the loop had reached,
    and the trace goes on from where that call left it. *)
Lemma forEach_calls_at f todo : forall s s',
  f ∈ todo ->
  forEach todo s = Returned s' ->
  f ∈ listeners s' ->
  exists sf tr,
    rtc listener_step s sf
    /\ f ∈ listeners sf
    /\ trace s' = trace (final (call f sf)) ++ tr.
Proof.
  induction todo as [|g todo IH]; intros s s' Hin Hret Hreg.
  { by apply elem_of_nil in Hin. }
  simpl in Hret. destruct (decide (g ∈ listeners s)) as [Hg|Hg].
  - pose proof (call_steps g s Hg) as Hsteps.
    destruct (call g s) as [s1|s1] eqn:Hcall; [|done]. simpl in Hsteps.
    destruct (decide (g = f)) as [->|Hne].
    + destruct (forEach_trace todo s1) as (tr2 & Ht2 & _).
      rewrite Hret in Ht2. simpl in Ht2.
      exists s, tr2. rewrite Hcall. by simpl.
    + apply elem_of_cons in Hin as [->|Hin]; [done|].
      destruct (IH s1 s' Hin Hret Hreg) as (sf & tr & Hsf & Hinf & Htr).
      exists sf, tr. split; [|done]. by etrans.
  - destruct (decide (g = f)) as [->|Hne].
    + pose proof (forEach_steps todo s) as Hsteps. rewrite Hret in Hsteps.
      destruct (listener_steps_shrink _ _ Hsteps) as [Hls _].
      by apply Hls in Hreg.
    + apply elem_of_cons in Hin as [->|Hin]; [done|]. by apply (IH s s').
Qed.

(** A flush that returns has called every listener that was registered
    when it started and still is when it ends. *)
Lemma flush_calls_registered f s s' :
  f ∈ listeners s ->
  f < length (closures s) ->
  flush s = Returned s' ->
  f ∈ listeners s' ->
  exists tr, trace s' = trace s ++ Flush :: tr /\ f ∈ calls_of tr.
Proof.
  unfold flush. intros Hin Hlt Hret Hreg.
  destruct (forEach (listeners s) (log Flush s)) as [s1|s1] eqn:Hloop; [|done].
  injection Hret as <-.
  destruct (forEach_calls_registered f (listeners s) (log Flush s) s1
              Hin Hlt Hloop Hreg) as (tr & Ht & Hc).
  exists tr. simpl in *. rewrite Ht, <- app_assoc. done.
Qed.
End coverage.

(** ** Path-scoped subscribers *)

Section subtree.
Variables (f : lid) (path : string) (c : component).
Implicit Types (s : store) (old v : value) (tr : list event).

(** [===] holds between equal values only. *)
Lemma strict_eq_true a b : strict_eq a b = true -> a = b.
Proof.
  unfold strict_eq.
  destruct a as [[]|]; destruct b as [[]|]; try done;
    by intros ?%bool_decide_eq_true.
Qed.

Lemma quiet_head_app tr1 tr2 :
  quiet_head tr1 -> quiet_head tr2 -> quiet_head (tr1 ++ tr2).
Proof. by destruct tr1. Qed.

Lemma forced_next_app tr1 tr2 :
  quiet_head tr2 -> forced_next c (tr1 ++ tr2) = forced_next c tr1.
Proof. destruct tr1 as [|e tr1]; [|done]. simpl. by destruct tr2 as [|[] ?]. Qed.

Lemma history_app tr1 tr2 :
  quiet_head tr2 ->
  history f c (tr1 ++ tr2) = history f c tr1 ++ history f c tr2.
Proof.
  intros Hq. induction tr1 as [|e tr1 IH]; [done|].
  destruct e; simpl; try done.
  destruct (decide (_ = f)); [|done].
  by rewrite IH, forced_next_app.
Qed.

Lemma last_or_app old vs1 vs2 :
  last_or old (vs1 ++ vs2) = last_or (last_or old vs1) vs2.
Proof.
  unfold last_or. destruct vs2 as [|v vs2 _] using rev_ind.
  - by rewrite app_nil_r.
  - by rewrite app_assoc, !last_snoc.
Qed.

Lemma filtered_app old vs1 vs2 :
  filtered old (vs1 ++ vs2)
  = filtered old vs1 ++ filtered (last_or old vs1) vs2.
Proof.
  revert old. induction vs1 as [|v vs1 IH]; intros old; [done|].
  simpl. rewrite IH. do 3 f_equal.
  exact (eq_sym (last_or_app old [v] vs1)).
Qed.

Local Abbreviation tracked := (tracked f path c).

Lemma call_head_quiet tr : call_head tr -> quiet_head tr.
Proof. by destruct tr as [|[] ?]. Qed.

Lemma call_head_app tr1 tr2 :
  call_head tr1 -> call_head tr2 -> call_head (tr1 ++ tr2).
Proof. by destruct tr1. Qed.

Lemma observed_next_app tr1 tr2 :
  call_head tr2 -> observed_next f (tr1 ++ tr2) = observed_next f tr1.
Proof. destruct tr1 as [|e tr1]; [|done]. simpl. by destruct tr2 as [|[] ?]. Qed.

Lemma calls_resolve_app tr1 tr2 :
  call_head tr2 ->
  calls_resolve f (tr1 ++ tr2) = calls_resolve f tr1 && calls_resolve f tr2.
Proof.
  intros Hq. induction tr1 as [|e tr1 IH]; [done|].
  destruct e; simpl; try done.
  rewrite IH, (observed_next_app tr1 tr2 Hq). by rewrite andb_assoc.
Qed.

Lemma tracked_refl s : tracked s s.
Proof. intros old Hf. exists []. by rewrite app_nil_r. Qed.

Lemma tracked_trans s1 s2 s3 : tracked s1 s2 -> tracked s2 s3 -> tracked s1 s3.
Proof.
  intros H12 H23 old Hf.
  destruct (H12 old Hf) as (tr1 & Ht1 & Hq1 & Hr1 & Hh1 & Hc1).
  destruct (H23 _ Hc1) as (tr2 & Ht2 & Hq2 & Hr2 & Hh2 & Hc2).
  exists (tr1 ++ tr2). rewrite Ht2, Ht1, app_assoc.
  rewrite calls_resolve_app by done.
  rewrite history_app, fmap_app, filtered_app, last_or_app
    by by apply call_head_quiet.
  split; [done|]. split; [by apply call_head_app|].
  split; [by rewrite Hr1, Hr2|].
  split; [congruence | done].
Qed.

Lemma tracked_silent s s' tr :
  trace s' = trace s ++ tr ->
  call_head tr ->
  calls_resolve f tr = true ->
  history f c tr = [] ->
  closures s' !! f = closures s !! f ->
  tracked s s'.
Proof.
  intros Ht Hq Hr Hh Hc old Hf. exists tr. rewrite Hh, Hc. by simpl.
Qed.

Lemma listener_step_tracked s s' : listener_step s s' -> tracked s s'.
Proof.
  destruct 1 as [a s|g c' s Hg Hc|g path' old' c' s Hg Hc Heq
                |g path' old' c' s Hg Hc Heq].
  - destruct (run_action_frame a s) as (Hcl & Htr & _).
    apply (tracked_silent _ _ []); rewrite ?app_nil_r, ?Hcl; done.
  - destruct (decide (g = f)) as [->|Hne].
    + intros old Hf. congruence.
    + apply (tracked_silent _ _ [Called g; Forced (cid c')]); simpl;
        rewrite <- ?app_assoc, ?decide_False; done.
  - destruct (decide (g = f)) as [->|Hne].
    + intros old Hf. rewrite Hf in Hc. injection Hc as <- <- <-.
      exists [Called f; Observed f (get (mem s) (state s) path)].
      simpl. rewrite <- app_assoc, !decide_True by done. simpl.
      rewrite Heq, bool_decide_eq_true_2 by done. repeat split; try done.
      unfold last_or. simpl. by rewrite (strict_eq_true _ _ Heq).
    + apply (tracked_silent _ _
               [Called g; Observed g (get (mem s) (state s) path')]); simpl;
        rewrite <- ?app_assoc, ?decide_False; done.
  - destruct (decide (g = f)) as [->|Hne].
    + intros old Hf. rewrite Hf in Hc. injection Hc as <- <- <-.
      exists [Called f; Observed f (get (mem s) (state s) path);
              Forced (cid c)].
      simpl. rewrite <- !app_assoc, !decide_True by done. simpl.
      rewrite Heq, !bool_decide_eq_true_2 by done.
      repeat split; try done.
      unfold last_or. simpl. apply list_lookup_insert_eq.
      by eapply lookup_lt_Some.
    + apply (tracked_silent _ _
               [Called g; Observed g (get (mem s) (state s) path');
                Forced (cid c')]); simpl;
        rewrite <- ?app_assoc, ?decide_False; try done.
      by apply list_lookup_insert_ne.
Qed.

Lemma mount_tracked fn s :
  tracked s (subscribe (new_closure fn s).2 (new_closure fn s).1).
Proof.
  intros old Hf. exists []. simpl. rewrite app_nil_r.
  repeat split; try done. unfold last_or. simpl.
  by apply lookup_app_l_Some.
Qed.

Lemma micro_tracked s s' : micro s s' -> tracked s s'.
Proof.
  destruct 1 as [s s' Hl|n s Ht|s|s|c' s|path' c' s].
  - by apply listener_step_tracked.
  - by apply (tracked_silent _ _ [Flush]).
  - apply (tracked_silent _ _ []); simpl; rewrite ?app_nil_r; done.
  - by apply (tracked_silent _ _ [Uncaught]).
  - apply mount_tracked.
  - apply mount_tracked.
Qed.

Lemma micro_steps_tracked s s' : rtc micro s s' -> tracked s s'.
Proof.
  induction 1 as [s|s1 s2 s3 H12 _ IH]; [apply tracked_refl|].
  eapply tracked_trans; [by apply micro_tracked | exact IH].
Qed.
End subtree.

Lemma micro_steps_closures (s s' : store) :
  rtc micro s s' -> length (closures s) <= length (closures s').
Proof.
  induction 1 as [|s1 s2 s3 H12 _ IH]; [done|].
  etrans; [|exact IH].
  destruct H12 as [s s' Hl|n s Ht|s|s|c s|path c s]; simpl; try done;
    try (rewrite length_app; lia).
  destruct (listener_step_shrink _ _ Hl) as [_ ->]. done.
Qed.

(** What a call of a [useSubtree] listener appends to the trace. *)
Lemma call_subtree_trace (f : lid) (path : string) (old : value)
    (c : component) (s : store) :
  closures s !! f = Some (SubtreeListener path old c) ->
  trace (final (call f s))
  = trace s ++ Called f :: Observed f (get (mem s) (state s) path)
      :: (if strict_eq (get (mem s) (state s) path) old then []
          else [Forced (cid c)]).
Proof.
  intros Hf. unfold call. rewrite Hf. simpl.
  destruct (strict_eq (get (mem s) (state s) path) old); simpl.
  - by rewrite <- app_assoc.
  - unfold forceUpdate. rewrite run_script_trace. simpl.
    by rewrite <- !app_assoc.
Qed.



(** * Further properties *)

(** ** The timer queue *)

Lemma pending_ok_action (a : action) (s : store) :
  pending_ok s -> pending_ok (final (run_action a s)).
Proof.
  assert (forall s0, pending_ok s0 -> pending_ok (notify s0)) as Hn.
  { intros s0 Hs0. unfold notify.
    destruct (queued s0) eqn:Hq; [done|]. unfold pending_ok in *. simpl.
    destruct Hs0 as [Ht|[_ ?]]; [right; by rewrite Ht | congruence]. }
  intros Hs. destruct a; simpl; try done.
  - by apply Hn.
  - unfold set. destruct (assign (mem s) (state s) fork) as [h' st].
    by apply Hn.
  - unfold reset. destruct (cloneDeep (mem s) (initial s)) as [h' st].
    by apply Hn.
Qed.

Lemma pending_ok_script (script : list action) : forall s,
  pending_ok s -> pending_ok (final (run_script script s)).
Proof.
  induction script as [|a script IH]; intros s Hs; simpl; [done|].
  pose proof (pending_ok_action a s Hs) as Ha.
  destruct (run_action a s) as [s'|s']; simpl in *; [by apply IH | done].
Qed.

Lemma pending_ok_step (s : store) (c : command) :
  pending_ok s -> pending_ok (step s c).
Proof.
  intros Hs. destruct c as [script|c|path c|]; simpl; try done.
  - by apply pending_ok_script.
  - unfold tick. destruct Hs as [Ht|[Ht Hq]]; rewrite Ht; [by left|].
    pose proof (flush_flag (with_timers 0 s) Hq) as Hend.
    left. destruct (flush (with_timers 0 s)); simpl in *; tauto.
Qed.

(** At every turn of the event loop of every execution at most one flush
    is waiting, and the flag is set while it does. *)
Lemma pending_ok_Store (h : heap) (init : value) : pending_ok (Store h init).
Proof. unfold Store. destruct (cloneDeep h init). by left. Qed.

Lemma pending_ok_run (cs : list command) : forall s,
  pending_ok s -> pending_ok (run cs s).
Proof.
  unfold run. induction cs as [|c cs IH]; intros s Hs; simpl; [done|].
  by apply IH, pending_ok_step.
Qed.

(** So it is while a flush runs: the flag is set and the timer of the
    flush is no longer waiting. *)
Lemma pending_ok_in_flush (s s' : store) :
  queued s = true -> timers s = 0 ->
  rtc listener_step (log Flush s) s' -> pending_ok s'.
Proof.
  intros Hq Ht Hsteps.
  destruct (listener_steps_flag _ _ Hsteps Hq) as [_ Ht']. left.
  by rewrite Ht'.
Qed.

(** C3 (as amended).  A task of action code gets to call [notify()]
    (directly or through [set] or [reset]) at least once, on a store in
    which at most one flush is waiting and the flag is set while it does,
    as is the case at every turn of the event loop of every execution
    and while a flush runs.
    When the flag was clear or a flush was waiting, exactly one flush is
    waiting after the task; the next turn of the event loop runs it, on the
    store as the whole task left it; the trace shows that one flush
    starting and no other, and further turns of the loop do nothing.  When
    the flag was set with no flush waiting, as it is while a flush runs and
    for good once an exception has ended one, the calls schedule nothing:
    no flush is waiting after the task, and no turn of the event loop adds
    anything to the trace. *)
Theorem notify_calls_coalesce (s : store) (script : list action) :
  pending_ok s ->
  flush_requested script = true ->
  let s' := final (run_script script s) in
  queued s' = true
  /\ trace s' = trace s
  /\ (queued s = false \/ timers s = 1 ->
        timers s' = 1
        /\ tick s' = report (flush (with_timers 0 s'))
        /\ timers (tick s') = 0
        /\ (exists tr, trace (tick s') = trace s ++ Flush :: tr /\ flushes tr = 0)
        /\ forall n, run (replicate n Yield) (tick s') = tick s')
  /\ (queued s = true -> timers s = 0 ->
        timers s' = 0 /\ forall n, run (replicate n Yield) s' = s').
Proof.
  intros Hok Hreq s'.
  assert (trace s' = trace s) as Htr by apply run_script_trace.
  assert (queued s = true -> queued s' = true /\ timers s' = timers s) as Hset.
  { intros Hq. apply (listener_steps_flag s s'); [|done].
    apply run_script_steps. }
  assert (forall s0 n, timers s0 = 0 -> run (replicate n Yield) s0 = s0) as Hidle.
  { intros s0 n Ht0. induction n as [|n IH]; [done|].
    change (run (replicate (S n) Yield) s0)
      with (run (replicate n Yield) (tick s0)).
    assert (tick s0 = s0) as ->; [|exact IH]. unfold tick. by rewrite Ht0. }
  assert (queued s' = true) as Hq'.
  { destruct (queued s) eqn:Hq; [by apply Hset|].
    assert (flag_tracks_timer s) as Hs.
    { left. destruct Hok as [Ht|[_ ?]]; [done | congruence]. }
    destruct (run_script_tracks script s Hs) as [_ Hqs]. apply Hqs. by left. }
  split; [done|]. split; [done|]. split.
  - intros Hcase.
    assert (timers s' = 1) as Ht'.
    { destruct (queued s) eqn:Hq.
      - destruct (Hset eq_refl) as [_ ->].
        destruct Hcase as [?|?]; [done|]. done.
      - assert (flag_tracks_timer s) as Hs.
        { left. destruct Hok as [Ht|[_ ?]]; [done | congruence]. }
        destruct (run_script_tracks script s Hs) as [Hft _]. fold s' in Hft.
        destruct Hft as [[? _]|[_ ?]]; [congruence | done]. }
    assert (tick s' = report (flush (with_timers 0 s'))) as Htick.
    { unfold tick. by rewrite Ht'. }
    assert (timers (tick s') = 0) as Hzero.
    { rewrite Htick. pose proof (flush_flag (with_timers 0 s') Hq') as Hend.
      destruct (flush (with_timers 0 s')); simpl in *; tauto. }
    split; [done|]. split; [done|]. split; [done|]. split; [|by auto].
    rewrite Htick, <- Htr. unfold flush.
    destruct (forEach_trace (listeners (with_timers 0 s'))
                (log Flush (with_timers 0 s'))) as (tr & Hft & _ & Hfl).
    destruct (forEach (listeners (with_timers 0 s'))
                (log Flush (with_timers 0 s'))) as [s2|s2]; simpl in *.
    + exists tr. by rewrite Hft, <- app_assoc.
    + exists (tr ++ [Uncaught]). rewrite Hft, <- !app_assoc. split; [done|].
      rewrite flushes_app. simpl. lia.
  - intros Hq Ht. destruct (Hset Hq) as [_ Ht']. rewrite Ht in Ht'. auto.
Qed.

Lemma notify_calls_coalesce_witness :
  pending_ok cart
  /\ flush_requested [CallSet (Ref 1); CallNotify; CallNotify] = true
  /\ let s' := final (run_script [CallSet (Ref 1); CallNotify; CallNotify] cart) in
     queued s' = true
     /\ trace s' = trace cart
     /\ (queued cart = false \/ timers cart = 1 ->
           timers s' = 1
           /\ tick s' = report (flush (with_timers 0 s'))
           /\ timers (tick s') = 0
           /\ (exists tr,
                 trace (tick s') = trace cart ++ Flush :: tr /\ flushes tr = 0)
           /\ forall n, run (replicate n Yield) (tick s') = tick s')
     /\ (queued cart = true -> timers cart = 0 ->
           timers s' = 0 /\ forall n, run (replicate n Yield) s' = s').
Proof.
  assert (pending_ok cart) as Hc by (left; reflexivity).
  split; [exact Hc|]. split; [reflexivity|].
  apply (notify_calls_coalesce cart [CallSet (Ref 1); CallNotify; CallNotify]);
    [exact Hc | reflexivity].
Defined.

(** C3, counterexample.  On [cart_stuck] an exception has ended a flush:
    the flag is set and no flush is waiting.  A task then runs
    [set({open: true}); notify(); notify()].  No flush is waiting after it,
    and two turns of the event loop later the trace still shows the one
    flush of before and no other, while [open] is [true] in the tree. *)
Lemma notify_after_exception_schedules_nothing :
  queued cart_stuck = true
  /\ timers cart_stuck = 0
  /\ flushes (trace cart_stuck) = 1
  /\ timers (run [Run [CallSet (Ref 1); CallNotify; CallNotify]] cart_stuck) = 0
  /\ trace (run [Run [CallSet (Ref 1); CallNotify; CallNotify]; Yield; Yield]
              cart_stuck)
     = trace cart_stuck
  /\ useSubtree "open"
       (run [Run [CallSet (Ref 1); CallNotify; CallNotify]; Yield; Yield]
            cart_stuck)
     = Prim (PBool true).
Proof. by_computation. Qed.

(** X1.  Whatever action code, effects and turns of the event loop follow
    the construction of a store, with or without exceptions, at most one
    flush is ever waiting in the timer queue, and the flag is set while one
    is. *)
Theorem at_most_one_flush_pending (h : heap) (init : value)
    (cs : list command) :
  timers (run cs (Store h init)) <= 1
  /\ (timers (run cs (Store h init)) = 1 ->
      queued (run cs (Store h init)) = true).
Proof.
  assert (pending_ok (run cs (Store h init))) as Hok.
  { assert (pending_ok (Store h init)) as H0.
    { unfold Store. destruct (cloneDeep h init). by left. }
    revert H0. generalize (Store h init). unfold run.
    induction cs as [|c cs IH]; intros s Hs; simpl; [done|].
    by apply IH, pending_ok_step. }
  destruct Hok as [->|[-> Hq]]; split; auto; try lia.
Qed.

(** X2.  A store whose flag is set while no flush is waiting, which is how
    an exception in a listener leaves it, stays that way: no task of action
    code, effect or turn of the event loop ever starts a flush or calls a
    listener again. *)
Theorem stuck_flag_silences_store (s : store) (cs : list command) :
  queued s = true -> timers s = 0 ->
  trace (run cs s) = trace s
  /\ queued (run cs s) = true
  /\ timers (run cs s) = 0.
Proof.
  revert s. unfold run.
  induction cs as [|c cs IH]; intros s Hq Ht; simpl; [done|].
  assert (trace (step s c) = trace s /\ queued (step s c) = true
          /\ timers (step s c) = 0) as (Htr & Hq' & Ht').
  { destruct c as [script|c|path c|]; simpl; try done.
    - rewrite run_script_trace. split; [done|].
      destruct (listener_steps_flag _ _ (run_script_steps script s) Hq)
        as [? ?]. split; [done | congruence].
    - unfold tick. by rewrite Ht. }
  destruct (IH _ Hq' Ht') as (? & ? & ?). split; [congruence | done].
Qed.

Lemma stuck_flag_silences_store_witness :
  queued (tick cart_thrower) = true
  /\ timers (tick cart_thrower) = 0
  /\ trace (run [Run [CallNotify]; Yield; MountTree (quiet 3);
                 Run [CallReset]; Yield] (tick cart_thrower))
     = trace (tick cart_thrower)
  /\ queued (run [Run [CallNotify]; Yield; MountTree (quiet 3);
                  Run [CallReset]; Yield] (tick cart_thrower)) = true
  /\ timers (run [Run [CallNotify]; Yield; MountTree (quiet 3);
                  Run [CallReset]; Yield] (tick cart_thrower)) = 0.
Proof.
  split; [vm_compute; reflexivity|]. split; [vm_compute; reflexivity|].
  apply (stuck_flag_silences_store (tick cart_thrower)); vm_compute; reflexivity.
Defined.

(** ** The order of calls *)

Lemma call_calls (f : lid) (s : store) :
  exists tr, trace (final (call f s)) = trace s ++ tr
             /\ (calls_of tr = [f] \/ calls_of tr = []).
Proof.
  unfold call. destruct (closures s !! f) as [[c|path old c]|] eqn:Hf.
  - exists [Called f; Forced (cid c)]. unfold forceUpdate.
    rewrite run_script_trace. simpl. rewrite <- app_assoc. auto.
  - simpl. destruct (strict_eq (get (mem s) (state s) path) old).
    + eexists [Called f; Observed f _]. simpl. rewrite <- app_assoc. auto.
    + eexists [Called f; Observed f _; Forced (cid c)]. unfold forceUpdate.
      rewrite run_script_trace. simpl. rewrite <- !app_assoc. auto.
  - exists []. simpl. rewrite app_nil_r. auto.
Qed.

Lemma forEach_sublist (todo : list lid) : forall s,
  exists tr, trace (final (forEach todo s)) = trace s ++ tr
             /\ calls_of tr `sublist_of` todo.
Proof.
  induction todo as [|f todo IH]; intros s; simpl.
  { exists []. by rewrite app_nil_r. }
  destruct (decide (f ∈ listeners s)) as [Hin|Hnin].
  - destruct (call_calls f s) as (tr1 & Ht1 & Hc1).
    destruct (call f s) as [s'|s']; simpl in *.
    + destruct (IH s') as (tr2 & Ht2 & Hc2).
      exists (tr1 ++ tr2). rewrite Ht2, Ht1, app_assoc, calls_of_app.
      split; [done|]. destruct Hc1 as [->| ->]; simpl.
      * by apply sublist_skip.
      * by apply sublist_cons.
    + exists tr1. split; [done|]. destruct Hc1 as [->| ->].
      * apply sublist_skip, sublist_nil_l.
      * apply sublist_nil_l.
  - destruct (IH s) as (tr & Ht & Hc). exists tr. split; [done|].
    by apply sublist_cons.
Qed.

(** X3.  A flush, whether it returns or is ended by an exception, calls
    the listeners that were registered when it started in the order in
    which they were subscribed, and none of them more than once: their
    calls, in the order in which the flush makes them, are a sublist of the
    registry as it was when the flush started. *)
Theorem flush_calls_in_subscription_order (s : store) :
  NoDup (listeners s) ->
  exists tr,
    trace (report (flush s)) = trace s ++ Flush :: tr
    /\ filter (.∈ listeners s) (calls_of tr) `sublist_of` listeners s
    /\ NoDup (filter (.∈ listeners s) (calls_of tr)).
Proof.
  intros Hnd. unfold flush.
  destruct (forEach_sublist (listeners s) (log Flush s)) as (tr & Ht & Hc).
  assert (filter (.∈ listeners s) (calls_of tr) `sublist_of` listeners s)
    as Hsub.
  { etrans; [apply sublist_filter | exact Hc]. }
  destruct (forEach (listeners s) (log Flush s)) as [s'|s']; simpl in *.
  - exists tr. rewrite Ht, <- app_assoc. repeat split; try done.
    by eapply sublist_NoDup.
  - exists (tr ++ [Uncaught]). rewrite Ht, <- !app_assoc.
    rewrite calls_of_app. simpl. rewrite app_nil_r. repeat split; try done.
    by eapply sublist_NoDup.
Qed.

Lemma flush_calls_in_subscription_order_witness :
  NoDup (listeners cart_two_quiet)
  /\ exists tr,
       trace (report (flush cart_two_quiet))
       = trace cart_two_quiet ++ Flush :: tr
       /\ filter (.∈ listeners cart_two_quiet) (calls_of tr)
          `sublist_of` listeners cart_two_quiet
       /\ NoDup (filter (.∈ listeners cart_two_quiet) (calls_of tr)).
Proof.
  assert (NoDup (listeners cart_two_quiet)) as Hnd.
  { simpl. apply NoDup_cons. split; [|apply NoDup_singleton].
    intros H%list_elem_of_singleton. discriminate H. }
  split; [exact Hnd|].
  apply (flush_calls_in_subscription_order cart_two_quiet Hnd).
Defined.

(** ** The registry along an execution *)

Lemma micro_registry_ok (s s' : store) :
  micro s s' -> registry_ok s -> registry_ok s'.
Proof.
  intros Hstep [Hnd Hlt]. split; [by eapply micro_NoDup|].
  rewrite Forall_forall in Hlt. apply Forall_forall.
  destruct Hstep as [s s' Hl|n s Ht|s|s|c s|path c s]; simpl; try done.
  - destruct (listener_step_shrink _ _ Hl) as [Hls ->]. auto.
  - intros g. rewrite elem_of_set_add, length_app. simpl.
    intros [->|Hg]; [lia|]. specialize (Hlt g Hg). lia.
  - intros g. rewrite elem_of_set_add, length_app. simpl.
    intros [->|Hg]; [lia|]. specialize (Hlt g Hg). lia.
Qed.

Lemma run_registry_ok (cs : list command) (s : store) :
  registry_ok s -> registry_ok (run cs s).
Proof.
  intros Hs. pose proof (run_steps cs s) as Hsteps.
  induction Hsteps as [|s1 s2 s3 H12 _ IH]; [done|].
  by apply IH, (micro_registry_ok s1).
Qed.

Lemma Store_registry_ok (h : heap) (init : value) :
  registry_ok (Store h init).
Proof.
  unfold Store. destruct (cloneDeep h init). split; simpl; constructor.
Qed.

Lemma set_delete_fresh (f : lid) (ls : list lid) :
  f ∉ ls -> set_delete f (set_add f ls) = ls.
Proof.
  intros Hnin. unfold set_add. rewrite decide_False by done.
  unfold set_delete. rewrite filter_app.
  rewrite (filter_cons _ f []). rewrite decide_False by (intros H; by apply H).
  rewrite filter_nil, app_nil_r.
  induction ls as [|g ls IH]; [done|].
  apply not_elem_of_cons in Hnin as [Hne Hnin].
  rewrite filter_cons, decide_True by done. by rewrite IH.
Qed.

Lemma set_add_fresh (f : lid) (ls : list lid) : f ∉ ls -> set_add f ls = ls ++ [f].
Proof. intros Hnin. unfold set_add. by rewrite decide_False. Qed.

Lemma set_delete_absent (f : lid) (ls : list lid) : f ∉ ls -> set_delete f ls = ls.
Proof.
  intros Hnin. unfold set_delete. induction ls as [|g ls IH]; [done|].
  apply not_elem_of_cons in Hnin as [Hne Hnin].
  rewrite filter_cons, decide_True by done. by rewrite IH.
Qed.

Lemma set_delete_cons (f g : lid) (ls : list lid) :
  set_delete f (g :: ls)
  = if decide (g = f) then set_delete f ls else g :: set_delete f ls.
Proof.
  unfold set_delete. rewrite filter_cons.
  destruct (decide (g = f)) as [->|Hne].
  - rewrite decide_False; [done|]. intros Hg. by apply Hg.
  - by rewrite decide_True.
Qed.

Lemma set_delete_app (f : lid) (l1 l2 : list lid) :
  set_delete f (l1 ++ l2) = set_delete f l1 ++ set_delete f l2.
Proof. unfold set_delete. apply filter_app. Qed.

(** The registry stays well formed along every execution, wherever in it
    effects are committed. *)
Lemma micro_steps_registry_ok (s s' : store) :
  rtc micro s s' -> registry_ok s -> registry_ok s'.
Proof.
  induction 1 as [|s1 s2 s3 H12 _ IH]; [done|].
  intros Hs. by apply IH, (micro_registry_ok s1).
Qed.



(** Two [useSubtree("total")] subscribers of the same component on
    [cart_two_quiet], which has two listeners already: the two new
    listeners are closures 2 and 3, and the clean-up of the first leaves
    the second. *)
Example two_runs_two_entries :
  listeners (effect (UseSubtree "total") (quiet 3)
               (effect (UseSubtree "total") (quiet 3) cart_two_quiet).1).1
  = [0; 1; 2; 3]
  /\ listeners
       (unsubscribe 2
          (effect (UseSubtree "total") (quiet 3)
             (effect (UseSubtree "total") (quiet 3) cart_two_quiet).1).1)
     = [0; 1; 3].
Proof. by_computation. Qed.

(** X4.  In a store that an execution has reached from its construction,
    running the effect of [useTree] or [useSubtree] and then its clean-up
    leaves the registry exactly as it was: the same listeners in the same
    order. *)
Theorem mount_then_cleanup_restores_registry (h : heap) (init : value)
    (cs : list command) (path : string) (c : component) :
  let s := run cs (Store h init) in
  listeners (unsubscribe (useTree_effect c s).2 (useTree_effect c s).1)
  = listeners s
  /\ listeners (unsubscribe (useSubtree_effect path c s).2
                  (useSubtree_effect path c s).1)
     = listeners s.
Proof.
  intros s.
  destruct (run_registry_ok cs _ (Store_registry_ok h init)) as [_ Hlt].
  fold s in Hlt. rewrite Forall_forall in Hlt.
  assert (length (closures s) ∉ listeners s) as Hfresh.
  { intros Hin. specialize (Hlt _ Hin). lia. }
  split; simpl; by apply set_delete_fresh.
Qed.

(** X5.  Calling the unsubscribe function of one listener leaves every
    other listener registered, and the next flush that returns with such a
    listener still registered has called it. *)
Theorem unsubscribe_spares_others (s s' : store) (f g : lid) :
  g <> f ->
  g ∈ listeners s ->
  g < length (closures s) ->
  flush (unsubscribe f s) = Returned s' ->
  g ∈ listeners s' ->
  g ∈ listeners (unsubscribe f s)
  /\ exists tr, trace s' = trace s ++ Flush :: tr /\ g ∈ calls_of tr.
Proof.
  intros Hne Hin Hlt Hret Hreg.
  assert (g ∈ listeners (unsubscribe f s)) as Hin'.
  { simpl. by apply elem_of_set_delete. }
  split; [done|].
  by apply (flush_calls_registered g (unsubscribe f s) s').
Qed.

Lemma unsubscribe_spares_others_witness :
  1 <> 0
  /\ 1 ∈ listeners cart_two_quiet
  /\ 1 < length (closures cart_two_quiet)
  /\ flush (unsubscribe 0 cart_two_quiet)
     = Returned (final (flush (unsubscribe 0 cart_two_quiet)))
  /\ 1 ∈ listeners (final (flush (unsubscribe 0 cart_two_quiet)))
  /\ 1 ∈ listeners (unsubscribe 0 cart_two_quiet)
  /\ exists tr,
       trace (final (flush (unsubscribe 0 cart_two_quiet)))
       = trace cart_two_quiet ++ Flush :: tr
       /\ 1 ∈ calls_of tr.
Proof.
  assert (1 ∈ listeners cart_two_quiet) as H1.
  { simpl. apply list_elem_of_further, list_elem_of_here. }
  assert (1 < length (closures cart_two_quiet)) as H2 by (simpl; lia).
  assert (1 ∈ listeners (final (flush (unsubscribe 0 cart_two_quiet)))) as H3.
  { vm_compute. apply list_elem_of_here. }
  split; [discriminate|]. split; [exact H1|]. split; [exact H2|].
  split; [vm_compute; reflexivity|]. split; [exact H3|].
  apply (unsubscribe_spares_others cart_two_quiet
           (final (flush (unsubscribe 0 cart_two_quiet))) 0 1);
    [discriminate | exact H1 | exact H2 | vm_compute; reflexivity | exact H3].
Defined.

(** ** Whole-tree subscribers *)

Section whole_tree.
Variables (f : lid) (c : component).
Implicit Types (s : store) (tr : list event).

Local Abbreviation tree_tracked := (tree_tracked f c).

Lemma calls_forced_app tr1 tr2 :
  quiet_head tr2 ->
  calls_forced f c (tr1 ++ tr2) = calls_forced f c tr1 && calls_forced f c tr2.
Proof.
  intros Hq. induction tr1 as [|e tr1 IH]; [done|].
  destruct e; simpl; try done.
  rewrite IH, (forced_next_app c tr1 tr2 Hq). by rewrite andb_assoc.
Qed.

Lemma tree_tracked_refl s : tree_tracked s s.
Proof. intros Hf. exists []. by rewrite app_nil_r. Qed.

Lemma tree_tracked_trans s1 s2 s3 :
  tree_tracked s1 s2 -> tree_tracked s2 s3 -> tree_tracked s1 s3.
Proof.
  intros H12 H23 Hf.
  destruct (H12 Hf) as (tr1 & Ht1 & Hq1 & Hc1 & Hf1).
  destruct (H23 Hf1) as (tr2 & Ht2 & Hq2 & Hc2 & Hf2).
  exists (tr1 ++ tr2). rewrite Ht2, Ht1, app_assoc, calls_forced_app by done.
  split; [done|]. split; [by apply quiet_head_app|].
  split; [by rewrite Hc1, Hc2 | done].
Qed.

Lemma tree_tracked_step s s' tr :
  trace s' = trace s ++ tr ->
  quiet_head tr ->
  calls_forced f c tr = true ->
  closures s' !! f = closures s !! f ->
  tree_tracked s s'.
Proof. intros Ht Hq Hc Hcl Hf. exists tr. by rewrite Hcl. Qed.

Lemma listener_step_tree_tracked s s' : listener_step s s' -> tree_tracked s s'.
Proof.
  destruct 1 as [a s|g c' s Hg Hc|g path' old' c' s Hg Hc Heq
                |g path' old' c' s Hg Hc Heq].
  - destruct (run_action_frame a s) as (Hcl & Htr & _).
    apply (tree_tracked_step _ _ []); rewrite ?app_nil_r, ?Hcl; done.
  - intros Hf. exists [Called g; Forced (cid c')]. simpl.
    rewrite <- app_assoc. repeat split; try done.
    destruct (decide (g = f)) as [->|Hne]; [|done].
    rewrite Hf in Hc. injection Hc as <-.
    by rewrite bool_decide_eq_true_2.
  - intros Hf. exists [Called g; Observed g (get (mem s) (state s) path')].
    simpl. rewrite <- app_assoc. repeat split; try done.
    destruct (decide (g = f)) as [->|Hne]; [congruence | done].
  - intros Hf.
    exists [Called g; Observed g (get (mem s) (state s) path'); Forced (cid c')].
    simpl. rewrite <- !app_assoc.
    destruct (decide (g = f)) as [->|Hne]; [congruence|].
    repeat split; try done. by rewrite list_lookup_insert_ne.
Qed.

Lemma micro_tree_tracked s s' : micro s s' -> tree_tracked s s'.
Proof.
  destruct 1 as [s s' Hl|n s Ht|s|s|c' s|path' c' s].
  - by apply listener_step_tree_tracked.
  - by apply (tree_tracked_step _ _ [Flush]).
  - apply (tree_tracked_step _ _ []); simpl; rewrite ?app_nil_r; done.
  - by apply (tree_tracked_step _ _ [Uncaught]).
  - intros Hf. exists []. simpl. rewrite app_nil_r.
    repeat split; try done. by apply lookup_app_l_Some.
  - intros Hf. exists []. simpl. rewrite app_nil_r.
    repeat split; try done. by apply lookup_app_l_Some.
Qed.

Lemma micro_steps_tree_tracked s s' : rtc micro s s' -> tree_tracked s s'.
Proof.
  induction 1 as [s|s1 s2 s3 H12 _ IH]; [apply tree_tracked_refl|].
  eapply tree_tracked_trans; [by apply micro_tree_tracked | exact IH].
Qed.
End whole_tree.

(** X6.  The effect of [useTree] has subscribed the listener [f] for
    component [c].  In the trace of any execution from there, every call of
    [f] is followed at once by [forceUpdate] of [c], whether or not anything
    in the tree changed, and every flush that returns with [f] still
    registered has called [f]. *)
Theorem useTree_listener_always_forces (c : component) (s : store) :
  let s0 := (useTree_effect c s).1 in
  let f := (useTree_effect c s).2 in
  (forall cs, exists tr,
     trace (run cs s0) = trace s ++ tr /\ calls_forced f c tr = true)
  /\ (forall cs s2,
        f ∈ listeners (run cs s0) ->
        flush (run cs s0) = Returned s2 ->
        f ∈ listeners s2 ->
        exists tr,
          trace s2 = trace (run cs s0) ++ Flush :: tr /\ f ∈ calls_of tr).
Proof.
  intros s0 f. split.
  - intros cs.
    destruct (micro_steps_tree_tracked f c _ _ (run_steps cs s0))
      as (tr & Ht & _ & Hc & _).
    + simpl. by apply list_lookup_middle.
    + exists tr. split; [exact Ht | exact Hc].
  - intros cs s2 Hin Hret Hreg.
    apply (flush_calls_registered f (run cs s0) s2); try done.
    pose proof (micro_steps_closures _ _ (run_steps cs s0)) as Hlen.
    subst s0 f. simpl in *. rewrite length_app in Hlen. simpl in Hlen. lia.
Qed.

(** ** Reading through the hooks *)

Section reading.
Implicit Types (s : store) (h : heap) (v : value) (k : string).

(** A string in which [reIsDeepProp] finds nothing is a property name. *)
Lemma get_top_level h v k :
  reIsDeepProp k = false ->
  get h v k = if nullish v then undefined else read h v k.
Proof.
  intros Hk. unfold get, castPath, isKey. rewrite Hk. simpl.
  rewrite orb_true_r. simpl. by destruct (nullish v).
Qed.

(** So is any string that is a key of the object. *)
Lemma get_own_key h v k : has_key h v k = true -> get h v k = read h v k.
Proof.
  intros Hk. unfold get, castPath, isKey. rewrite Hk, orb_true_r. simpl.
  destruct v as [[]|]; try done.
Qed.

Lemma set_prop_set_prop k v v' o :
  lookup_prop k o = Some v -> set_prop k v (set_prop k v' o) = o.
Proof.
  induction o as [|[k0 v0] o IH]; simpl; [done|].
  destruct (decide (k = k0)) as [->|Hne]; simpl.
  - rewrite decide_True by done. by intros [= ->].
  - rewrite decide_False by done. intros Hl. by rewrite IH.
Qed.
End reading.

(** X7.  The tree is a plain object.  An assignment [tree[k] = v] through
    the reference that [getTree()] returned, for any key [k] but
    [__proto__], is seen at once by [useSubtree(k)]; it leaves what
    [useSubtree] returns for every other property name and what
    [getTree()] returns unchanged, and it schedules no flush: the flag and
    the timer queue are as before. *)
Theorem write_through_getTree (s : store) (l : loc) (o : obj) (k : string)
    (v : value) :
  getTree s = Ref l -> mem s !! l = Some o -> k <> "__proto__" ->
  useSubtree k (final (run_action (AssignProp l k v) s)) = v
  /\ (forall k', reIsDeepProp k' = false -> k' <> k ->
        useSubtree k' (final (run_action (AssignProp l k v) s))
        = useSubtree k' s)
  /\ getTree (final (run_action (AssignProp l k v) s)) = Ref l
  /\ queued (final (run_action (AssignProp l k v) s)) = queued s
  /\ timers (final (run_action (AssignProp l k v) s)) = timers s.
Proof.
  unfold getTree, useSubtree. intros Hst Hl _. simpl. rewrite Hst.
  assert (write l k v (mem s) !! l = Some (set_prop k v o)) as Hw.
  { unfold write. by rewrite list_lookup_alter_eq, Hl. }
  repeat split.
  - rewrite get_own_key; simpl; rewrite Hw.
    + unfold get_prop. by rewrite lookup_set_prop_eq.
    + apply bool_decide_eq_true_2. rewrite lookup_set_prop_eq. by eexists.
  - intros k' Hk' Hne. rewrite !get_top_level by done. simpl.
    rewrite Hw, Hl. unfold get_prop. by rewrite lookup_set_prop_ne.
Qed.

Lemma write_through_getTree_witness :
  getTree cart = Ref 2
  /\ mem cart !! 2 = Some [("open", Prim (PBool false)); ("total", Prim (PNum 0))]
  /\ "total" <> "__proto__"
  /\ useSubtree "total"
       (final (run_action (AssignProp 2 "total" (Prim (PNum 9))) cart))
     = Prim (PNum 9)
  /\ (forall k', reIsDeepProp k' = false -> k' <> "total" ->
        useSubtree k'
          (final (run_action (AssignProp 2 "total" (Prim (PNum 9))) cart))
        = useSubtree k' cart)
  /\ getTree (final (run_action (AssignProp 2 "total" (Prim (PNum 9))) cart))
     = Ref 2
  /\ queued (final (run_action (AssignProp 2 "total" (Prim (PNum 9))) cart))
     = queued cart
  /\ timers (final (run_action (AssignProp 2 "total" (Prim (PNum 9))) cart))
     = timers cart.
Proof.
  split; [reflexivity|]. split; [reflexivity|]. split; [discriminate|].
  apply (write_through_getTree cart 2
           [("open", Prim (PBool false)); ("total", Prim (PNum 0))]);
    [reflexivity | reflexivity | discriminate].
Defined.

(** X8.  The tree and [fork] are plain objects and [k] is a property
    name.  After [set(fork)], [useSubtree(k)] returns [fork]'s value when
    [fork] has the property and the value it returned before otherwise.  A
    [useSubtree(k)] listener whose [oldEncoding] is the value before the
    call, and is [===] to itself, goes on to [forceUpdate] at its next call
    exactly when [fork] has the property with a value that is not [===] to
    the old one. *)
Theorem set_rerenders_changed_keys (s : store) (l lf : loc) (o src : obj)
    (k : string) (f : lid) (c : component) :
  getTree s = Ref l -> mem s !! l = Some o -> mem s !! lf = Some src ->
  reIsDeepProp k = false ->
  closures s !! f = Some (SubtreeListener k (useSubtree k s) c) ->
  strict_eq (useSubtree k s) (useSubtree k s) = true ->
  useSubtree k (set (Ref lf) s) = default (useSubtree k s) (lookup_prop k src)
  /\ trace (final (call f (set (Ref lf) s)))
     = trace s ++ Called f :: Observed f (useSubtree k (set (Ref lf) s))
         :: match lookup_prop k src with
            | Some v =>
              if strict_eq v (useSubtree k s) then [] else [Forced (cid c)]
            | None => []
            end.
Proof.
  unfold getTree. intros Hst Hl Hsrc Hk Hf Hold.
  assert (useSubtree k (set (Ref lf) s)
          = default (useSubtree k s) (lookup_prop k src)) as Hread.
  { unfold useSubtree. rewrite (set_object _ _ _ Hst), mem_notify, state_notify.
    simpl. rewrite Hst, !get_top_level by done. simpl.
    rewrite list_lookup_alter_eq, Hl, Hsrc. simpl. unfold get_prop.
    rewrite lookup_copyObject.
    destruct (lookup_prop k src) as [v|] eqn:Hv.
    - rewrite decide_True; [|apply lookup_prop_keys; by exists v].
      simpl. unfold get_prop. by rewrite Hv.
    - rewrite decide_False; [done|].
      intros [v Hv']%lookup_prop_keys. congruence. }
  split; [exact Hread|].
  assert (closures (set (Ref lf) s) = closures s
          /\ trace (set (Ref lf) s) = trace s) as [Hcl Htr].
  { rewrite (set_object _ _ _ Hst).
    by destruct (notify_fields
                   (with_mem (alter (copyObject (source_props (mem s) (Ref lf)))
                                l (mem s)) s)) as (_ & _ & _ & _ & -> & ->). }
  rewrite <- Hcl in Hf. rewrite (call_subtree_trace _ _ _ _ _ Hf), Htr.
  fold (useSubtree k (set (Ref lf) s)). rewrite Hread.
  destruct (lookup_prop k src); simpl; [done|]. by rewrite Hold.
Qed.

Lemma set_rerenders_changed_keys_witness :
  getTree cart_total_subscriber = Ref 2
  /\ mem cart_total_subscriber !! 2
     = Some [("open", Prim (PBool false)); ("total", Prim (PNum 0))]
  /\ mem cart_total_subscriber !! 1 = Some [("open", Prim (PBool true))]
  /\ reIsDeepProp "total" = false
  /\ closures cart_total_subscriber !! 0
     = Some (SubtreeListener "total"
               (useSubtree "total" cart_total_subscriber) (quiet 2))
  /\ strict_eq (useSubtree "total" cart_total_subscriber)
       (useSubtree "total" cart_total_subscriber) = true
  /\ useSubtree "total" (set (Ref 1) cart_total_subscriber)
     = default (useSubtree "total" cart_total_subscriber)
         (lookup_prop "total" [("open", Prim (PBool true))])
  /\ trace (final (call 0 (set (Ref 1) cart_total_subscriber)))
     = trace cart_total_subscriber
       ++ Called 0
          :: Observed 0 (useSubtree "total" (set (Ref 1) cart_total_subscriber))
          :: match lookup_prop "total" [("open", Prim (PBool true))] with
             | Some v =>
               if strict_eq v (useSubtree "total" cart_total_subscriber)
               then [] else [Forced (cid (quiet 2))]
             | None => []
             end.
Proof.
  split; [reflexivity|]. split; [reflexivity|]. split; [reflexivity|].
  split; [reflexivity|]. split; [reflexivity|]. split; [reflexivity|].
  apply (set_rerenders_changed_keys cart_total_subscriber 2 1
           [("open", Prim (PBool false)); ("total", Prim (PNum 0))]
           [("open", Prim (PBool true))] "total" 0 (quiet 2)); reflexivity.
Defined.

(** ** Reset after work on the state *)

Section reset_workflow.
Variables (h : heap) (init : value) (t : ltree).
Hypothesis Hinit : tree_of h init = Some t.
Implicit Types (s : store).

Local Abbreviation apart := (apart h init).

Lemma apart_tree s : apart s -> tree_of (mem s) init = Some t.
Proof.
  intros (_ & Hlen & Hag & _). unfold tree_of in *.
  eapply walk_fuel; [|exact Hlen].
  eapply walk_agree; [exact Hinit|]. intros l Hl. apply Hag.
  pose proof (walk_locs_lt _ _ _ _ Hinit) as Hlt.
  rewrite Forall_forall in Hlt. by apply Hlt.
Qed.

Lemma apart_Store : apart (Store h init).
Proof.
  destruct (cloneDeep_spec _ _ _ Hinit) as (e & v' & t' & Hc & Hw & He & Hf).
  unfold apart, Store. rewrite Hc. simpl. rewrite length_app.
  repeat split; [lia| |].
  - intros l Hl. by apply lookup_app_l.
  - intros l ->. apply walk_ref_inv in Hw as [kids ->].
    simpl in Hf. by inversion Hf.
Qed.

Lemma apart_notify s : apart s -> apart (notify s).
Proof.
  unfold apart.
  by destruct (notify_fields s) as (-> & -> & -> & _).
Qed.

Lemma apart_action (a : action) s :
  apart s -> writes_from (length h) a = true ->
  apart (final (run_action a s)).
Proof.
  intros Hs Hw. pose proof Hs as (Hi & Hlen & Hag & Hst).
  destruct a; simpl; try done.
  - by apply apart_notify.
  - unfold set, assign. destruct (state s) as [p|l] eqn:Hstate; simpl.
    + apply apart_notify. unfold apart. simpl. rewrite length_app.
      repeat split; [done|lia| |].
      * intros l Hl. rewrite lookup_app_l by lia. by apply Hag.
      * intros l [= <-]. lia.
    + apply apart_notify. unfold apart. simpl. rewrite length_alter.
      repeat split; [done|done| |].
      * intros l' Hl'. rewrite list_lookup_alter_ne; [by apply Hag|].
        specialize (Hst l eq_refl). lia.
      * intros l' [= <-]. by apply Hst.
  - unfold reset. rewrite Hi.
    destruct (cloneDeep_spec _ _ _ (apart_tree s Hs))
      as (e & v' & t' & Hc & Hw' & He & Hf).
    rewrite Hc. apply apart_notify. unfold apart. simpl. rewrite length_app.
    repeat split; [done|lia| |].
    + intros l' Hl'. rewrite lookup_app_l by lia. by apply Hag.
    + intros l' ->. apply walk_ref_inv in Hw' as [kids ->].
      simpl in Hf. inversion Hf. lia.
  - simpl in Hw. apply bool_decide_eq_true in Hw.
    unfold apart, write. simpl. rewrite length_alter.
    repeat split; [done|done| |done].
    intros l' Hl'. rewrite list_lookup_alter_ne; [by apply Hag | lia].
  - unfold apart. simpl. rewrite length_app.
    repeat split; [done|lia| |done].
    intros l' Hl'. rewrite lookup_app_l by lia. by apply Hag.
Qed.

Lemma apart_script (script : list action) : forall s,
  apart s -> forallb (writes_from (length h)) script = true ->
  apart (final (run_script script s)).
Proof.
  induction script as [|a script IH]; intros s Hs Hw; simpl; [done|].
  simpl in Hw. apply andb_prop in Hw as [Ha Hw].
  pose proof (apart_action a s Hs Ha) as Hs'.
  destruct (run_action a s) as [s'|s']; simpl in *; [by apply IH | done].
Qed.
End reset_workflow.

(** X9.  A store is constructed from a tree-shaped [initial], and a task of
    action code works on it in any way (calls of [set], [reset] and
    [notify], new objects, assignments to objects of the state or to any
    object created after the construction) that does not assign to an
    object that existed before the construction.  Then [reset()] installs a
    tree equal to the one the store was constructed from, made of newly
    allocated objects only. *)
Theorem reset_after_work_restores_initial (h : heap) (init : value)
    (t : ltree) (script : list action) :
  tree_of h init = Some t ->
  forallb (writes_from (length h)) script = true ->
  exists t',
    tree_of (mem (reset (final (run_script script (Store h init)))))
            (getTree (reset (final (run_script script (Store h init)))))
    = Some t'
    /\ erase t' = erase t
    /\ Forall (fun l =>
                 length (mem (final (run_script script (Store h init)))) <= l)
         (locs t').
Proof.
  intros Ht Hw.
  pose proof (apart_script h init t Ht script _ (apart_Store h init t Ht) Hw)
    as Hs.
  pose proof (apart_tree h init t Ht _ Hs) as Htree.
  destruct Hs as (Hi & _).
  set (s := final (run_script script (Store h init))) in *.
  rewrite <- Hi in Htree.
  destruct (cloneDeep_spec _ _ _ Htree) as (e & v' & t' & Hc & Hw' & He & Hf).
  exists t'. unfold reset, getTree. rewrite Hc, mem_notify, state_notify.
  by simpl.
Qed.

Lemma reset_after_work_restores_initial_witness :
  tree_of cart_heap (Ref 0)
  = Some (LNode 0 [("open", LLeaf (PBool false)); ("total", LLeaf (PNum 0))])
  /\ forallb (writes_from (length cart_heap))
       [CallSet (Ref 1); AssignProp 2 "total" (Prim (PNum 9));
        NewObject [("tax", Prim (PNum 1))]; AssignProp 2 "summary" (Ref 3);
        CallNotify] = true
  /\ exists t',
       tree_of
         (mem (reset (final (run_script
            [CallSet (Ref 1); AssignProp 2 "total" (Prim (PNum 9));
             NewObject [("tax", Prim (PNum 1))]; AssignProp 2 "summary" (Ref 3);
             CallNotify] (Store cart_heap (Ref 0))))))
         (getTree (reset (final (run_script
            [CallSet (Ref 1); AssignProp 2 "total" (Prim (PNum 9));
             NewObject [("tax", Prim (PNum 1))]; AssignProp 2 "summary" (Ref 3);
             CallNotify] (Store cart_heap (Ref 0))))))
       = Some t'
       /\ erase t'
          = erase (LNode 0 [("open", LLeaf (PBool false));
                            ("total", LLeaf (PNum 0))])
       /\ Forall (fun l =>
                    length (mem (final (run_script
                      [CallSet (Ref 1); AssignProp 2 "total" (Prim (PNum 9));
                       NewObject [("tax", Prim (PNum 1))];
                       AssignProp 2 "summary" (Ref 3); CallNotify]
                      (Store cart_heap (Ref 0))))) <= l)
            (locs t').
Proof.
  split; [reflexivity|]. split; [reflexivity|].
  apply (reset_after_work_restores_initial cart_heap (Ref 0)); reflexivity.
Defined.

(** ** Paths *)

Section paths.
Implicit Types (h : heap) (v root : value) (a b : string) (c : ascii).

Local Abbreviation name_char := (fun c => negb (is_special c)).

Lemma append_nil_l b : "" +:+ b = b.
Proof. reflexivity. Qed.

Lemma append_cons c a b : String c a +:+ b = String c (a +:+ b).
Proof. reflexivity. Qed.

Lemma is_name_cons c a :
  is_name (String c a) = true -> is_special c = false /\ is_name a = true.
Proof.
  simpl. intros [Hc Ha]%andb_true_iff. by apply negb_true_iff in Hc.
Qed.

Lemma not_special c :
  is_special c = false ->
  Ascii.eqb c "."%char = false /\ Ascii.eqb c "["%char = false.
Proof.
  unfold is_special. intros [[Hd Ho]%orb_false_elim _]%orb_false_elim. done.
Qed.

(** A run of name characters ends at the dot, or at the end. *)
Lemma take_while_name_dot a b :
  is_name a = true ->
  take_while name_char (a +:+ String "." b) = (a, String "." b).
Proof.
  induction a as [|c a IH]; intros Ha; [done|].
  apply is_name_cons in Ha as [Hc Ha].
  rewrite append_cons. cbn [take_while]. by rewrite Hc, (IH Ha).
Qed.

Lemma take_while_name a : is_name a = true -> take_while name_char a = (a, "").
Proof.
  induction a as [|c a IH]; intros Ha; [done|].
  apply is_name_cons in Ha as [Hc Ha].
  cbn [take_while]. by rewrite Hc, (IH Ha).
Qed.

Lemma rePropName_empty n : rePropName n "" = [].
Proof. by destruct n. Qed.

Lemma rePropName_name b n :
  is_name b = true -> b <> "" -> rePropName (S n) b = [b].
Proof.
  intros Hb Hne. destruct b as [|c b]; [done|].
  destruct (is_name_cons _ _ Hb) as [Hc _].
  cbn [rePropName]. by rewrite Hc, (take_while_name _ Hb), rePropName_empty.
Qed.

Lemma empty_segment_dot_name c b :
  is_special c = false -> empty_segment (String "." (String c b)) = false.
Proof.
  intros Hc. destruct (not_special _ Hc) as [Hd Ho].
  assert (separator (String c b) = None) as Hsep.
  { unfold separator. by rewrite Hd, Ho. }
  unfold empty_segment.
  change (separator (String "." (String c b))) with (Some (String c b)).
  cbn iota. by rewrite Hsep.
Qed.

Lemma rePropName_dot n b :
  rePropName (S n) (String "." b)
  = if empty_segment (String "." b) then "" :: rePropName n b
    else rePropName n b.
Proof. reflexivity. Qed.

Lemma rePropName_dot_name b n :
  is_name b = true -> String.length b < n ->
  rePropName n (String "." b) = [b].
Proof.
  intros Hb Hn. destruct n as [|n]; [lia|]. rewrite rePropName_dot.
  destruct b as [|c b].
  - change (empty_segment ".") with true. cbn iota. by rewrite rePropName_empty.
  - destruct (is_name_cons _ _ Hb) as [Hc _].
    rewrite (empty_segment_dot_name c b Hc).
    simpl in Hn. destruct n as [|n]; [lia|]. by apply rePropName_name.
Qed.

Lemma length_append_dot a b :
  String.length b < String.length (a +:+ String "." b).
Proof.
  induction a as [|c a IH]; [simpl; lia|]. rewrite append_cons. simpl. lia.
Qed.

(** On two names joined by a dot, [stringToPath] gives the two names. *)
Lemma stringToPath_dotted a b :
  is_name a = true -> is_name b = true ->
  stringToPath (a +:+ String "." b) = [a; b].
Proof.
  intros Ha Hb. unfold stringToPath. destruct a as [|c a].
  - rewrite append_nil_l. simpl expect. simpl bool_decide. cbn iota.
    rewrite rePropName_dot_name; [done | done | simpl; lia].
  - destruct (is_name_cons _ _ Ha) as [Hc Ha'].
    destruct (not_special _ Hc) as [Hd _].
    rewrite append_cons. cbn [expect]. rewrite Hd. simpl bool_decide. cbn iota.
    cbn [String.length rePropName]. rewrite Hc.
    rewrite <- append_cons, (take_while_name_dot _ b Ha).
    rewrite rePropName_dot_name; [done | done | apply length_append_dot].
Qed.

Lemma reIsDeepProp_dotted a b : reIsDeepProp (a +:+ String "." b) = true.
Proof.
  induction a as [|c a IH]; [done|].
  rewrite append_cons. cbn [reIsDeepProp]. by rewrite IH, orb_true_r.
Qed.

Lemma reIsPlainProp_dotted a b : reIsPlainProp (a +:+ String "." b) = false.
Proof.
  unfold reIsPlainProp. induction a as [|c a IH]; [done|].
  rewrite append_cons. cbn [list_ascii_of_string forallb].
  by rewrite IH, andb_false_r.
Qed.

(** A name has nothing for [reIsDeepProp] to find. *)
Lemma is_name_not_deep a : is_name a = true -> reIsDeepProp a = false.
Proof.
  induction a as [|c a IH]; intros Ha; [done|].
  apply is_name_cons in Ha as [Hc Ha].
  destruct (not_special _ Hc) as [Hd Ho].
  cbn [reIsDeepProp]. by rewrite Hd, Ho, (IH Ha).
Qed.

End paths.

(** X10.  [useSubtree] of two property names joined by a dot.  Unless the
    joined string is itself a key of the tree, [useSubtree("a.b")] is what
    reading the property [b] gives on the value that [useSubtree("a")]
    returns; it is [undefined], not an exception, when the tree or that
    value is [null] or [undefined].  When the joined string is a key of
    the tree, [useSubtree("a.b")] is the value of that key.  When the tree
    is an object whose property [a] holds another object, an assignment
    [tree.a[b] = v] (for [b] other than [__proto__]) is seen at once by
    [useSubtree("a.b")], while [useSubtree("a")] returns the reference it
    returned before. *)
Theorem useSubtree_resolves_nested_paths (s : store) (a b : string) :
  is_name a = true -> is_name b = true ->
  (has_key (mem s) (state s) (a +:+ String "." b) = false ->
     useSubtree (a +:+ String "." b) s
     = (if nullish (useSubtree a s) then undefined
        else read (mem s) (useSubtree a s) b))
  /\ (has_key (mem s) (state s) (a +:+ String "." b) = true ->
      useSubtree (a +:+ String "." b) s
      = read (mem s) (state s) (a +:+ String "." b))
  /\ (forall l la o oa v,
        state s = Ref l -> mem s !! l = Some o ->
        lookup_prop a o = Some (Ref la) -> la <> l -> mem s !! la = Some oa ->
        lookup_prop (a +:+ String "." b) o = None -> b <> "__proto__" ->
        useSubtree (a +:+ String "." b) (final (run_action (AssignProp la b v) s))
        = v
        /\ useSubtree a (final (run_action (AssignProp la b v) s)) = Ref la
        /\ useSubtree a s = Ref la).
Proof.
  intros Ha Hb.
  assert (forall s0,
            has_key (mem s0) (state s0) (a +:+ String "." b) = false ->
            useSubtree (a +:+ String "." b) s0
            = (if nullish (useSubtree a s0) then undefined
               else read (mem s0) (useSubtree a s0) b)) as Hnested.
  { intros s0 Hkey. unfold useSubtree.
    rewrite (get_top_level (mem s0) (state s0) a (is_name_not_deep a Ha)).
    unfold get, castPath, isKey.
    rewrite reIsPlainProp_dotted, reIsDeepProp_dotted, Hkey. simpl.
    destruct (nullish (state s0)) eqn:Hroot; [done|].
    rewrite stringToPath_dotted by done. simpl. by rewrite Hroot. }
  split; [apply Hnested|]. split.
  - intros Hkey. by apply get_own_key.
  - intros l la o oa v Hst Hl Hla Hne Hoa Hkey _.
    assert (forall m, m !! l = Some o ->
              get m (Ref l) a = Ref la) as Hga.
    { intros m Hm. rewrite get_top_level by by apply is_name_not_deep.
      simpl. rewrite Hm. unfold get_prop. by rewrite Hla. }
    assert (write la b v (mem s) !! l = Some o) as Hl'.
    { unfold write. by rewrite list_lookup_alter_ne. }
    split; [|split].
    + rewrite Hnested.
      * unfold useSubtree. simpl. rewrite Hst, (Hga _ Hl'). simpl.
        unfold write. rewrite list_lookup_alter_eq, Hoa. simpl.
        unfold get_prop. by rewrite lookup_set_prop_eq.
      * simpl. rewrite Hst. simpl. rewrite Hl'.
        apply bool_decide_eq_false_2. rewrite Hkey. by intros [? ?].
    + unfold useSubtree. simpl. rewrite Hst. by apply Hga.
    + unfold useSubtree. rewrite Hst. by apply Hga.
Qed.

Lemma useSubtree_resolves_nested_paths_witness :
  is_name "summary" = true
  /\ is_name "total" = true
  /\ (has_key (mem summary_store) (state summary_store)
         ("summary" +:+ String "." "total") = false ->
      useSubtree ("summary" +:+ String "." "total") summary_store
      = (if nullish (useSubtree "summary" summary_store) then undefined
         else read (mem summary_store) (useSubtree "summary" summary_store)
                "total"))
  /\ (has_key (mem summary_store) (state summary_store)
         ("summary" +:+ String "." "total") = true ->
      useSubtree ("summary" +:+ String "." "total") summary_store
      = read (mem summary_store) (state summary_store)
          ("summary" +:+ String "." "total"))
  /\ (forall l la o oa v,
        state summary_store = Ref l -> mem summary_store !! l = Some o ->
        lookup_prop "summary" o = Some (Ref la) -> la <> l ->
        mem summary_store !! la = Some oa ->
        lookup_prop ("summary" +:+ String "." "total") o = None ->
        "total" <> "__proto__" ->
        useSubtree ("summary" +:+ String "." "total")
          (final (run_action (AssignProp la "total" v) summary_store))
        = v
        /\ useSubtree "summary"
             (final (run_action (AssignProp la "total" v) summary_store))
           = Ref la
        /\ useSubtree "summary" summary_store = Ref la).
Proof.
  split; [reflexivity|]. split; [reflexivity|].
  apply (useSubtree_resolves_nested_paths summary_store "summary" "total");
    reflexivity.
Defined.

(** [stringToPath] on the paths of lodash's own tests for consecutive
    empty brackets and dots. *)
Example stringToPath_separators :
  map stringToPath [".a"; "[].a"] = [[""; "a"]; [""; "a"]]
  /\ map stringToPath ["..a"; "[][].a"] = [[""; ""; "a"]; [""; ""; "a"]]
  /\ map stringToPath ["a..b"; "a[].b"] = [["a"; ""; "b"]; ["a"; ""; "b"]]
  /\ map stringToPath ["a...b"; "a[][].b"]
     = [["a"; ""; ""; "b"]; ["a"; ""; ""; "b"]]
  /\ map stringToPath ["a."; "a[]"] = [["a"; ""]; ["a"; ""]]
  /\ map stringToPath ["a.."; "a[][]"] = [["a"; ""; ""]; ["a"; ""; ""]]
  /\ stringToPath "a[0].b.c" = ["a"; "0"; "b"; "c"]
  /\ stringToPath "a[-1.23].c" = ["a"; "-1.23"; "c"]
  /\ stringToPath "a['b.c'][d]" = ["a"; "b.c"; "d"].
Proof. by_computation. Qed.

(** [useSubtree] on the paths of the README and on bracketed paths:
    [summary_store] holds [{summary: {total: 0}}]. *)
Example useSubtree_paths :
  useSubtree "summary.total" summary_store = Prim (PNum 0)
  /\ useSubtree "summary[total]" summary_store = Prim (PNum 0)
  /\ useSubtree "[summary].total" summary_store = Prim (PNum 0)
  /\ useSubtree "summary.total.x" summary_store = undefined
  /\ useSubtree "summary.x.y" summary_store = undefined
  /\ stringToPath "x[0].b" = ["x"; "0"; "b"]
  /\ stringToPath "[open]" = ["open"].
Proof. by_computation. Qed.

(** ** The README's [toggleCartOpen] *)

Lemma alter_alter_restore (l : loc) (o : obj) (h : heap) (g g' : obj -> obj) :
  h !! l = Some o -> g' (g o) = o -> alter g' l (alter g l h) = h.
Proof.
  intros Hl Hg. apply list_eq. intros i.
  destruct (decide (i = l)) as [->|Hne].
  - by rewrite !list_lookup_alter_eq, Hl; simpl; rewrite Hg.
  - by rewrite !list_lookup_alter_ne.
Qed.

(** X11.  On a cart whose tree is an object with a boolean [open],
    [toggleCartOpen()] returns, [useSubtree("open")] then gives the negated
    boolean and [useSubtree] of every other property name what it gave
    before, the
    reference [getTree()] returns is the same, and the flag is set, so a
    flush is or has been scheduled.  A [useSubtree("open")] listener that
    had seen the old boolean goes on to [forceUpdate] when called.  A
    second [toggleCartOpen()] puts the heap back as it was.  (A property
    name is a string in which [reIsDeepProp] finds nothing.) *)
Theorem toggleCartOpen_flips_open (s : store) (l : loc) (o : obj) (b : bool) :
  getTree s = Ref l -> mem s !! l = Some o ->
  lookup_prop "open" o = Some (Prim (PBool b)) ->
  exists s1 s2,
    toggleCartOpen s = Returned s1
    /\ useSubtree "open" s1 = Prim (PBool (negb b))
    /\ (forall k, reIsDeepProp k = false -> k <> "open" ->
          useSubtree k s1 = useSubtree k s)
    /\ getTree s1 = Ref l
    /\ queued s1 = true
    /\ (forall f c,
          closures s !! f = Some (SubtreeListener "open" (Prim (PBool b)) c) ->
          trace (final (call f s1))
          = trace s ++ [Called f; Observed f (Prim (PBool (negb b)));
                        Forced (cid c)])
    /\ toggleCartOpen s1 = Returned s2
    /\ mem s2 = mem s
    /\ useSubtree "open" s2 = Prim (PBool b).
Proof.
  unfold getTree. intros Hst Hl Hopen.
  assert (read (mem s) (Ref l) "open" = Prim (PBool b)) as Hread.
  { simpl. rewrite Hl. unfold get_prop. by rewrite Hopen. }
  set (m1 := write l "open" (Prim (PBool (negb b))) (mem s)).
  set (s1 := update (with_mem m1 s)).
  assert (toggleCartOpen s = Returned s1) as Ht1.
  { unfold toggleCartOpen, getTree. by rewrite Hst, Hread. }
  assert (mem s1 = m1 /\ state s1 = Ref l /\ closures s1 = closures s
          /\ trace s1 = trace s) as (Hm1 & Hst1 & Hcl1 & Htr1).
  { unfold s1, update.
    destruct (notify_fields (with_mem m1 s)) as (-> & _ & -> & _ & -> & ->).
    by simpl. }
  assert (m1 !! l = Some (set_prop "open" (Prim (PBool (negb b))) o)) as Hl1.
  { unfold m1, write. by rewrite list_lookup_alter_eq, Hl. }
  assert (useSubtree "open" s1 = Prim (PBool (negb b))) as Hopen1.
  { unfold useSubtree. rewrite Hm1, Hst1, get_top_level by done. simpl.
    rewrite Hl1. unfold get_prop. by rewrite lookup_set_prop_eq. }
  set (m2 := write l "open" (Prim (PBool b)) m1).
  set (s2 := update (with_mem m2 s1)).
  assert (m2 = mem s) as Hm2.
  { unfold m2, m1, write. apply (alter_alter_restore l o); [done|].
    by apply set_prop_set_prop. }
  exists s1, s2. repeat split; try done.
  - intros k Hk Hne. unfold useSubtree.
    rewrite Hm1, Hst1, Hst, !get_top_level by done. simpl.
    rewrite Hl1, Hl. unfold get_prop. by rewrite lookup_set_prop_ne.
  - apply notify_sets_flag.
  - intros f c Hf. rewrite <- Hcl1 in Hf.
    rewrite (call_subtree_trace _ _ _ _ _ Hf), Htr1.
    fold (useSubtree "open" s1). rewrite Hopen1. by destruct b.
  - unfold toggleCartOpen, getTree. rewrite Hst1, Hm1. simpl.
    rewrite Hl1. unfold get_prop. rewrite lookup_set_prop_eq. simpl.
    unfold js_not. simpl. by rewrite negb_involutive.
  - unfold s2, update. by rewrite mem_notify.
  - unfold useSubtree, s2, update. rewrite mem_notify, state_notify. simpl.
    rewrite Hst1, Hm2, get_top_level by done. simpl. rewrite Hl.
    unfold get_prop. by rewrite Hopen.
Qed.

Lemma toggleCartOpen_flips_open_witness :
  getTree cart_open_subscriber = Ref 2
  /\ mem cart_open_subscriber !! 2
     = Some [("open", Prim (PBool false)); ("total", Prim (PNum 0))]
  /\ lookup_prop "open" [("open", Prim (PBool false)); ("total", Prim (PNum 0))]
     = Some (Prim (PBool false))
  /\ exists s1 s2,
       toggleCartOpen cart_open_subscriber = Returned s1
       /\ useSubtree "open" s1 = Prim (PBool (negb false))
       /\ (forall k, reIsDeepProp k = false -> k <> "open" ->
             useSubtree k s1 = useSubtree k cart_open_subscriber)
       /\ getTree s1 = Ref 2
       /\ queued s1 = true
       /\ (forall f c,
             closures cart_open_subscriber !! f
             = Some (SubtreeListener "open" (Prim (PBool false)) c) ->
             trace (final (call f s1))
             = trace cart_open_subscriber
               ++ [Called f; Observed f (Prim (PBool (negb false)));
                   Forced (cid c)])
       /\ toggleCartOpen s1 = Returned s2
       /\ mem s2 = mem cart_open_subscriber
       /\ useSubtree "open" s2 = Prim (PBool false).
Proof.
  split; [reflexivity|]. split; [reflexivity|]. split; [reflexivity|].
  apply (toggleCartOpen_flips_open cart_open_subscriber 2
           [("open", Prim (PBool false)); ("total", Prim (PNum 0))] false);
    reflexivity.
Defined.

(** ** Reset and the subscribers of object-valued paths *)

Section resolved_in_tree.
Implicit Types (h : heap) (v : value) (t : ltree) (o : obj).

(** What is read from a primitive is a primitive. *)
Lemma lookup_index_props_prim cs k v : forall n,
  lookup_prop k (index_props n cs) = Some v -> exists q, v = Prim q.
Proof.
  induction cs as [|c cs IH]; intros n; simpl; [done|].
  destruct (decide (k = index_key n)); [|apply IH].
  intros [= <-]. by eexists.
Qed.

Lemma read_prim h (p : prim) k : exists q, read h (Prim p) k = Prim q.
Proof.
  destruct p; simpl; try by eexists.
  destruct (lookup_prop k (string_props s)) as [v|] eqn:Hv.
  - by apply lookup_index_props_prim in Hv.
  - destruct (decide (k = "length")); by eexists.
Qed.

Lemma baseGet_loop_prim h segs l' : forall p : prim,
  baseGet_loop h (Prim p) segs = Ref l' -> False.
Proof.
  induction segs as [|k rest IH]; intros p; [done|]. cbn [baseGet_loop].
  destruct (nullish (Prim p)); [done|].
  destruct (read_prim h p k) as [q ->]. apply IH.
Qed.

Lemma walk_props_lookup (rec : value -> option ltree) o k v kids :
  walk_props rec o = Some kids ->
  lookup_prop k o = Some v ->
  exists t1, rec v = Some t1 /\ forall l, l ∈ locs t1 -> l ∈ kid_locs kids.
Proof.
  revert kids. induction o as [|[k0 v0] o IH]; intros kids Hk Hl; simpl in *;
    [done|].
  destruct (rec v0) as [t0|] eqn:H0; simpl in Hk; [|done].
  destruct (walk_props rec o) as [ts|] eqn:Hts; simpl in Hk; [|done].
  injection Hk as <-. unfold kid_locs. simpl.
  destruct (decide (k = k0)) as [->|Hne].
  - injection Hl as <-. exists t0. split; [done|].
    intros l Hin. apply elem_of_app. by left.
  - destruct (IH ts eq_refl Hl) as (t1 & Ht1 & Hsub).
    exists t1. split; [done|]. intros l Hin. apply elem_of_app. right.
    by apply Hsub.
Qed.

(** A reference that a path resolves to is an object of the tree of the
    root. *)
Lemma baseGet_loop_in_tree h segs l' : forall n v t,
  walk n h v = Some t -> baseGet_loop h v segs = Ref l' -> l' ∈ locs t.
Proof.
  induction segs as [|k rest IH]; intros n v t Hw Hget; simpl in Hget.
  { subst v. apply walk_ref_inv in Hw as [kids ->]. apply list_elem_of_here. }
  destruct v as [p|l].
  { destruct (nullish (Prim p)); [done|].
    destruct (read_prim h p k) as [q Hq]. rewrite Hq in Hget.
    by apply baseGet_loop_prim in Hget. }
  simpl in Hget. destruct n as [|n]; simpl in Hw; [done|].
  destruct (h !! l) as [o|] eqn:Hl; simpl in Hw;
    [|by apply (baseGet_loop_prim h rest l' PUndef) in Hget].
  destruct (walk_props (walk n h) o) as [kids|] eqn:Hk; simpl in Hw; [|done].
  injection Hw as <-. unfold get_prop in Hget.
  destruct (lookup_prop k o) as [v1|] eqn:Hv1; simpl in Hget;
    [|by apply (baseGet_loop_prim h rest l' PUndef) in Hget].
  destruct (walk_props_lookup _ _ _ _ _ Hk Hv1) as (t1 & Ht1 & Hsub).
  simpl. apply list_elem_of_further, Hsub. by eapply IH.
Qed.

Lemma get_in_tree h v t path l' :
  tree_of h v = Some t -> get h v path = Ref l' -> l' ∈ locs t.
Proof.
  unfold tree_of, get, baseGet. intros Hw.
  destruct (nullish v); [done|].
  destruct (castPath h path v) as [|k rest]; [done|].
  by apply baseGet_loop_in_tree with (n := length h).
Qed.
End resolved_in_tree.

(** X12.  [reset()] re-renders every subscriber of an object-valued path.
    When [initial] is tree-shaped and a [useSubtree] listener last saw an
    object at its path, whatever object its path resolves to after
    [reset()] is a newly allocated one, so the listener's next call goes on
    to [forceUpdate] even if the two objects hold the same values. *)
Theorem reset_rerenders_object_subscribers (s : store) (t : ltree) (f : lid)
    (path : string) (l l' : loc) (c : component) :
  tree_of (mem s) (initial s) = Some t ->
  closures s !! f = Some (SubtreeListener path (Ref l) c) ->
  l < length (mem s) ->
  useSubtree path (reset s) = Ref l' ->
  length (mem s) <= l'
  /\ trace (final (call f (reset s)))
     = trace s ++ [Called f; Observed f (Ref l'); Forced (cid c)].
Proof.
  intros Ht Hf Hl Hget.
  destruct (cloneDeep_spec _ _ _ Ht) as (e & v' & t' & Hc & Hw & He & Hfresh).
  assert (mem (reset s) = mem s ++ e /\ state (reset s) = v'
          /\ closures (reset s) = closures s /\ trace (reset s) = trace s)
    as (Hm & Hst & Hcl & Htr).
  { unfold reset. rewrite Hc.
    by destruct (notify_fields (with_state v' (with_mem (mem s ++ e) s)))
      as (-> & _ & -> & _ & -> & ->). }
  assert (length (mem s) <= l') as Hnew.
  { unfold useSubtree in Hget. rewrite Hm, Hst in Hget.
    pose proof (get_in_tree _ _ _ _ _ Hw Hget) as Hin.
    rewrite Forall_forall in Hfresh. by apply Hfresh. }
  split; [exact Hnew|].
  rewrite <- Hcl in Hf. rewrite (call_subtree_trace _ _ _ _ _ Hf), Htr.
  fold (useSubtree path (reset s)). rewrite Hget.
  assert (strict_eq (Ref l') (Ref l) = false) as ->; [|done].
  unfold strict_eq. apply bool_decide_eq_false. intros [= ->]. lia.
Qed.

Lemma reset_rerenders_object_subscribers_witness :
  tree_of (mem summary_subscriber) (initial summary_subscriber)
  = Some (LNode 1 [("summary", LNode 0 [("total", LLeaf (PNum 0))])])
  /\ closures summary_subscriber !! 0
     = Some (SubtreeListener "summary" (Ref 2) (quiet 1))
  /\ 2 < length (mem summary_subscriber)
  /\ useSubtree "summary" (reset summary_subscriber) = Ref 4
  /\ length (mem summary_subscriber) <= 4
  /\ trace (final (call 0 (reset summary_subscriber)))
     = trace summary_subscriber
       ++ [Called 0; Observed 0 (Ref 4); Forced (cid (quiet 1))].
Proof.
  assert (2 < length (mem summary_subscriber)) as Hlt by (simpl; lia).
  split; [reflexivity|]. split; [reflexivity|]. split; [exact Hlt|].
  split; [reflexivity|].
  apply (reset_rerenders_object_subscribers summary_subscriber
           (LNode 1 [("summary", LNode 0 [("total", LLeaf (PNum 0))])])
           0 "summary" 2 4 (quiet 1));
    [reflexivity | reflexivity | exact Hlt | reflexivity].
Defined.

(** ** A flush during which nobody unsubscribes *)

Lemma call_calls_exact (f : lid) (s : store) :
  f < length (closures s) ->
  exists tr, trace (final (call f s)) = trace s ++ tr /\ calls_of tr = [f].
Proof.
  intros Hlt. unfold call.
  destruct (closures s !! f) as [[c|path old c]|] eqn:Hf.
  - exists [Called f; Forced (cid c)]. unfold forceUpdate.
    rewrite run_script_trace. simpl. by rewrite <- app_assoc.
  - simpl. destruct (strict_eq (get (mem s) (state s) path) old).
    + eexists [Called f; Observed f _]. simpl. by rewrite <- app_assoc.
    + eexists [Called f; Observed f _; Forced (cid c)]. unfold forceUpdate.
      rewrite run_script_trace. simpl. by rewrite <- !app_assoc.
  - apply lookup_ge_None in Hf. lia.
Qed.

Lemma forEach_calls_all (todo : list lid) : forall s s',
  Forall (fun g => g < length (closures s)) todo ->
  forEach todo s = Returned s' ->
  (forall g, g ∈ todo -> g ∈ listeners s') ->
  exists tr, trace s' = trace s ++ tr /\ calls_of tr = todo.
Proof.
  induction todo as [|g todo IH]; intros s s' Hlt Hret Hreg.
  { injection Hret as <-. exists []. by rewrite app_nil_r. }
  apply Forall_cons in Hlt as [Hg Hlt].
  pose proof (forEach_steps (g :: todo) s) as Hsteps.
  rewrite Hret in Hsteps. simpl in Hsteps.
  destruct (listener_steps_shrink _ _ Hsteps) as [Hls _].
  assert (g ∈ listeners s) as Hin by (apply Hls, Hreg, list_elem_of_here).
  simpl in Hret. rewrite decide_True in Hret by done.
  pose proof (call_steps g s Hin) as Hcall.
  destruct (call_calls_exact g s Hg) as (tr1 & Ht1 & Hc1).
  destruct (call g s) as [s1|s1]; [|done]. simpl in *.
  destruct (listener_steps_shrink _ _ Hcall) as [_ Hlen].
  destruct (IH s1 s') as (tr2 & Ht2 & Hc2); [by rewrite Hlen|done| |].
  { intros g' Hg'. by apply Hreg, list_elem_of_further. }
  exists (tr1 ++ tr2). rewrite Ht2, Ht1, app_assoc, calls_of_app, Hc1, Hc2.
  done.
Qed.

Lemma filter_registered (ls calls : list lid) :
  (forall g, g ∈ calls -> g ∈ ls) -> filter (.∈ ls) calls = calls.
Proof.
  induction calls as [|g calls IH]; intros Hall; [done|].
  rewrite filter_cons, decide_True by apply Hall, list_elem_of_here.
  rewrite IH; [done|]. intros g' Hg'. by apply Hall, list_elem_of_further.
Qed.

(** X13.  A flush that returns, and at whose end every listener that was
    registered at its start still is, has called each of these listeners
    exactly once, in the order of their subscription: their calls, in the
    order in which the flush made them, are the registry as it was when
    the flush started. *)
Theorem flush_calls_everyone_once (s s' : store) :
  Forall (fun g => g < length (closures s)) (listeners s) ->
  flush s = Returned s' ->
  (forall g, g ∈ listeners s -> g ∈ listeners s') ->
  exists tr,
    trace s' = trace s ++ Flush :: tr
    /\ filter (.∈ listeners s) (calls_of tr) = listeners s.
Proof.
  unfold flush. intros Hlt Hret Hreg.
  destruct (forEach (listeners s) (log Flush s)) as [s1|s1] eqn:Hloop; [|done].
  injection Hret as <-.
  destruct (forEach_calls_all (listeners s) (log Flush s) s1 Hlt Hloop Hreg)
    as (tr & Ht & Hc).
  exists tr. simpl in *. rewrite Ht, <- app_assoc. split; [done|].
  rewrite Hc. by apply filter_registered.
Qed.

Lemma flush_calls_everyone_once_witness :
  Forall (fun g => g < length (closures cart_two_quiet))
    (listeners cart_two_quiet)
  /\ flush cart_two_quiet = Returned (final (flush cart_two_quiet))
  /\ (forall g, g ∈ listeners cart_two_quiet ->
        g ∈ listeners (final (flush cart_two_quiet)))
  /\ exists tr,
       trace (final (flush cart_two_quiet))
       = trace cart_two_quiet ++ Flush :: tr
       /\ filter (.∈ listeners cart_two_quiet) (calls_of tr)
          = listeners cart_two_quiet.
Proof.
  assert (Forall (fun g => g < length (closures cart_two_quiet))
            (listeners cart_two_quiet)) as H1.
  { simpl. repeat constructor. }
  assert (forall g, g ∈ listeners cart_two_quiet ->
            g ∈ listeners (final (flush cart_two_quiet))) as H2.
  { intros g Hg. exact Hg. }
  split; [exact H1|]. split; [vm_compute; reflexivity|]. split; [exact H2|].
  apply (flush_calls_everyone_once cart_two_quiet
           (final (flush cart_two_quiet)) H1);
    [vm_compute; reflexivity | exact H2].
Defined.
